(** * Gesture / voice fusion engine: cooldown gate, dispatcher, smoothing
    buffer, gesture classifier adapter and voice phrase mapper.

    A shallow embedding of
      modules/system_controller.py   (SystemController)
      modules/gesture_recognition.py (GestureRecognizer)
      modules/voice_commands.py      (VoiceCommandHandler)
    Python dictionaries used as maps are stdpp [gmap]s, the insertion-ordered
    phrase table is an association list, wall-clock seconds and confidences
    are rationals ([Q]); a value read from the environment ([time.time()],
    the outcome of an action, the iteration order of a [set]) is an explicit
    argument of the function that reads it. *)

From Stdlib Require Import QArith Lqa ZArith Lia List Ascii String.
From stdpp Require Import gmap strings list.
Import ListNotations.

Local Open Scope string_scope.

(** ** Rational helpers *)

(** Python's [x < y] on two timestamps or confidences. *)
Definition Qltb (x y : Q) : bool :=
  (Qnum x * QDen y <? Qnum y * QDen x)%Z.

(** ** SystemController (modules/system_controller.py) *)

Module Controller.

(** The bound methods stored in [gesture_actions] and [voice_actions]. *)
Inductive Action :=
| open_browser | close_browser | volume_up | volume_down | mute_audio
| unmute_audio | take_screenshot | open_calculator | open_notepad
| minimize_window | maximize_window | switch_window | scroll_up
| scroll_down | zoom_in | zoom_out | mouse_click | close_application
| stop_action | confirm_action | greeting | goodbye.

(** What calling an action did: it returned, or it raised an [Exception]
    carrying a message. *)
Inductive Outcome :=
| Done
| Raised (msg : string).

(** What the controller did to the outside world, oldest first. *)
Inductive Event :=
| Invoked (a : Action)
| LogInfo (msg : string)
| LogError (msg : string).

Record SystemController := mkController {
  gesture_actions : gmap string Action;
  voice_actions : gmap string Action;
  last_action_time : gmap string Q;
  action_cooldown : Q;
  trace : list Event
}.

(** [SystemController.__init__] *)
Definition init : SystemController :=
  {| gesture_actions := list_to_map
       [("fist", close_application); ("palm", stop_action);
        ("thumbs_up", volume_up); ("peace", take_screenshot);
        ("ok", confirm_action); ("point", mouse_click)];
     voice_actions := list_to_map
       [("open_browser", open_browser); ("close_browser", close_browser);
        ("volume_up", volume_up); ("volume_down", volume_down);
        ("mute_audio", mute_audio); ("unmute_audio", unmute_audio);
        ("screenshot", take_screenshot); ("open_calculator", open_calculator);
        ("open_notepad", open_notepad); ("minimize_window", minimize_window);
        ("maximize_window", maximize_window); ("alt_tab", switch_window);
        ("scroll_up", scroll_up); ("scroll_down", scroll_down);
        ("zoom_in", zoom_in); ("zoom_out", zoom_out);
        ("greeting", greeting); ("goodbye", goodbye)];
     last_action_time := ∅;
     action_cooldown := 1;
     trace := [] |}.

Definition set_last_action_time (m : gmap string Q) (c : SystemController)
  : SystemController :=
  {| gesture_actions := gesture_actions c;
     voice_actions := voice_actions c;
     last_action_time := m;
     action_cooldown := action_cooldown c;
     trace := trace c |}.

Definition emit (es : list Event) (c : SystemController) : SystemController :=
  {| gesture_actions := gesture_actions c;
     voice_actions := voice_actions c;
     last_action_time := last_action_time c;
     action_cooldown := action_cooldown c;
     trace := trace c ++ es |}.

(** [can_execute_action]; [current_time] is the value [time.time()] returned. *)
Definition can_execute_action (current_time : Q) (action_name : string)
    (c : SystemController) : bool * SystemController :=
  match last_action_time c !! action_name with
  | Some last =>
      if Qltb (current_time - last) (action_cooldown c)
      then (false, c)
      else (true, set_last_action_time
                    (<[action_name := current_time]> (last_action_time c)) c)
  | None =>
      (true, set_last_action_time
               (<[action_name := current_time]> (last_action_time c)) c)
  end.

(** The dictionary passed around as [gesture_result]; the landmark array it
    also carries is never read by the controller. *)
Record GestureResult := mkGestureResult {
  gesture : string;
  confidence : Q;
  hand_detected : bool
}.

(** The [try: table[key]() ... except Exception] block shared by both entry
    points; [exec] is what the host does when the action is called. *)
Definition run_action (exec : Action -> Outcome) (a : Action)
    (info err : string) (c : SystemController) : SystemController :=
  match exec a with
  | Done => emit [Invoked a; LogInfo info] c
  | Raised e => emit [Invoked a; LogError (err ++ e)] c
  end.

(** [execute_gesture_command]: the cooldown is asked for the gesture label. *)
Definition execute_gesture_command (current_time : Q)
    (exec : Action -> Outcome) (gesture_result : GestureResult)
    (c : SystemController) : SystemController :=
  let g := gesture gesture_result in
  match gesture_actions c !! g with
  | None => c
  | Some a =>
      let '(ok, c1) := can_execute_action current_time g c in
      if ok
      then run_action exec a ("Executed gesture action: " ++ g)
             ("Error executing gesture " ++ g ++ ": ") c1
      else c1
  end.

(** [execute_voice_command]: the cooldown is asked for the command token. *)
Definition execute_voice_command (current_time : Q)
    (exec : Action -> Outcome) (command : string)
    (c : SystemController) : SystemController :=
  match voice_actions c !! command with
  | None => c
  | Some a =>
      let '(ok, c1) := can_execute_action current_time command c in
      if ok
      then run_action exec a ("Executed voice command: " ++ command)
             ("Error executing voice command " ++ command ++ ": ") c1
      else c1
  end.

(** An event handed to the controller by one of the two loops of main.py. *)
Inductive Dispatch :=
| FromGesture (gesture_result : GestureResult)
| FromVoice (command : string).

Definition dispatch (current_time : Q) (exec : Action -> Outcome)
    (d : Dispatch) (c : SystemController) : SystemController :=
  match d with
  | FromGesture gr => execute_gesture_command current_time exec gr c
  | FromVoice cmd => execute_voice_command current_time exec cmd c
  end.

(** The string the entry point hands to [can_execute_action]. *)
Definition cooldown_key (d : Dispatch) : string :=
  match d with
  | FromGesture gr => gesture gr
  | FromVoice cmd => cmd
  end.

(** The action the entry point would call. *)
Definition resolved_action (d : Dispatch) (c : SystemController)
  : option Action :=
  match d with
  | FromGesture gr => gesture_actions c !! gesture gr
  | FromVoice cmd => voice_actions c !! cmd
  end.

(** Number of calls made to actions. *)
Fixpoint invocations (tr : list Event) : nat :=
  match tr with
  | [] => 0
  | Invoked _ :: tr' => S (invocations tr')
  | _ :: tr' => invocations tr'
  end.

(** A run of dispatches, one after the other. *)
Fixpoint dispatch_all (ds : list (Q * (Action -> Outcome) * Dispatch))
    (c : SystemController) : SystemController :=
  match ds with
  | [] => c
  | (t, exec, d) :: ds' => dispatch_all ds' (dispatch t exec d c)
  end.

(** A run of admit calls, one after the other, with their answers. *)
Fixpoint admit_all (calls : list (Q * string)) (c : SystemController)
  : list bool * SystemController :=
  match calls with
  | [] => ([], c)
  | (t, name) :: calls' =>
      let '(ok, c1) := can_execute_action t name c in
      let '(oks, c2) := admit_all calls' c1 in
      (ok :: oks, c2)
  end.

(** Consecutive times at least [d] apart. *)
Fixpoint spaced (d : Q) (ts : list Q) : Prop :=
  match ts with
  | [] => True
  | t :: ts' =>
      match ts' with
      | [] => True
      | u :: _ => (d <= u - t)%Q /\ spaced d ts'
      end
  end.

End Controller.

(** ** The two loops of main.py calling [can_execute_action] at once

    main.py runs [gesture_loop] and [voice_loop] on two threads that share
    one SystemController; [can_execute_action] takes no lock.  A call is
    split where another thread can run in between: the test of lines 55-58
    and the store of lines 60-61. *)

Module Race.
Import Controller.

Inductive Loop := GestureLoop | VoiceLoop.

(** Where one call of [can_execute_action] stands. *)
Inductive Pc :=
| Ready                      (* not started *)
| Checked (current_time : Q) (* test passed, store still to do *)
| Returned (answer : bool).

(** One thread moves one step; [now] is the clock at that moment. *)
Definition thread_step (now : Q) (action_name : string)
    (c : SystemController) (pc : Pc) : SystemController * Pc :=
  match pc with
  | Ready =>
      match last_action_time c !! action_name with
      | Some last =>
          if Qltb (now - last) (action_cooldown c)
          then (c, Returned false)
          else (c, Checked now)
      | None => (c, Checked now)
      end
  | Checked current_time =>
      (set_last_action_time
         (<[action_name := current_time]> (last_action_time c)) c,
       Returned true)
  | Returned b => (c, Returned b)
  end.

(** The shared controller and one call in flight on each loop. *)
Record System := mkSystem {
  shared : SystemController;
  gesture_call : string * Pc;
  voice_call : string * Pc
}.

Definition step (who : Loop) (now : Q) (s : System) : System :=
  match who with
  | GestureLoop =>
      let '(c, pc) := thread_step now (fst (gesture_call s)) (shared s)
                        (snd (gesture_call s)) in
      {| shared := c; gesture_call := (fst (gesture_call s), pc);
         voice_call := voice_call s |}
  | VoiceLoop =>
      let '(c, pc) := thread_step now (fst (voice_call s)) (shared s)
                        (snd (voice_call s)) in
      {| shared := c; gesture_call := gesture_call s;
         voice_call := (fst (voice_call s), pc) |}
  end.

Fixpoint run (schedule : list (Loop * Q)) (s : System) : System :=
  match schedule with
  | [] => s
  | (who, now) :: rest => run rest (step who now s)
  end.

Definition start (c : SystemController) (gesture_name voice_name : string)
  : System :=
  {| shared := c; gesture_call := (gesture_name, Ready);
     voice_call := (voice_name, Ready) |}.

(** The clock never goes back along a run of calls. *)
Fixpoint nondecreasing (ts : list Q) : Prop :=
  match ts with
  | [] => True
  | t :: ts' => (forall u, In u ts' -> (t <= u)%Q) /\ nondecreasing ts'
  end.

(** One call taken from start to return with no other thread in between. *)
Definition call_alone (now : Q) (action_name : string) (c : SystemController)
  : bool * SystemController :=
  let '(c1, pc1) := thread_step now action_name c Ready in
  let '(c2, pc2) := thread_step now action_name c1 pc1 in
  (match pc2 with Returned true => true | _ => false end, c2).

(** Calls of either loop taken one after the other. *)
Fixpoint run_serial (calls : list (Loop * Q * string)) (c : SystemController)
  : list bool * SystemController :=
  match calls with
  | [] => ([], c)
  | (_, t, name) :: calls' =>
      let '(ok, c1) := call_alone t name c in
      let '(oks, c2) := run_serial calls' c1 in
      (ok :: oks, c2)
  end.

End Race.

(** ** The loops at work on the gate (main.py, lines 56-95)

    Each loop hands the names it comes by, one after the other, to its
    entry point of the controller, [execute_gesture_command] or
    [execute_voice_command]; the steps of the two loops interleave in any
    way.  The action and the log lines that follow an admitted call touch
    neither the tables nor the timestamps and are left out. *)

Module Loops.
Import Controller Race.














End Loops.

(** ** GestureRecognizer (modules/gesture_recognition.py) *)

Module Recognizer.

(** A Python call either returns a value or raises. *)
Inductive Result (A : Type) :=
| Ok (a : A)
| Exc (e : string).
Arguments Ok {A} a.
Arguments Exc {A} e.

Definition bind {A B : Type} (r : Result A) (k : A -> Result B) : Result B :=
  match r with
  | Ok a => k a
  | Exc e => Exc e
  end.

Notation "'let!' x ':=' r 'in' k" := (bind r (fun x => k))
  (at level 10, x name, r at level 100, k at level 200).

(** The scikit-learn estimator behind [self.classifier], as far as
    [classify_gesture] uses it: both methods take the 1 x n feature row. *)
Record Classifier := mkClassifier {
  predict : list Q -> Result (list Z);
  predict_proba : list Q -> Result (list Q)
}.

(** config/settings.py *)
Definition GESTURE_THRESHOLD : Q := 8 # 10.
Definition GESTURE_SMOOTHING : Z := 5.

Record GestureRecognizer := mkRecognizer {
  classifier : option Classifier;
  gesture_labels : gmap Z string;
  gesture_buffer : list string;
  buffer_size : Z
}.

(** [GestureRecognizer.__init__]; [clf] is what [load_model] left in
    [self.classifier]. *)
Definition init (clf : option Classifier) : GestureRecognizer :=
  {| classifier := clf;
     gesture_labels := list_to_map
       [(0, "fist"); (1, "palm"); (2, "thumbs_up");
        (3, "peace"); (4, "ok"); (5, "point")]%Z;
     gesture_buffer := [];
     buffer_size := GESTURE_SMOOTHING |}.

(** Features per frame: x, y and z of each of the 21 hand landmarks
    ([extract_landmarks]). *)
Definition FEATURES : nat := 3 * 21.

(** [a[0]] *)
Definition index0 {A : Type} (a : list A) : Result A :=
  match a with
  | [] => Exc "IndexError"
  | x :: _ => Ok x
  end.

Definition Qmax (x y : Q) : Q := if Qltb x y then y else x.

(** [np.max] *)
Definition np_max (a : list Q) : Result Q :=
  match a with
  | [] => Exc "ValueError"
  | x :: rest => Ok (fold_left Qmax rest x)
  end.

(** The calls made on the classifier inside the [try] block. *)
Definition invoke (clf : Classifier) (features : list Q) : Result (Z * Q) :=
  let! predictions := predict clf features in
  let! prediction := index0 predictions in
  let! probabilities := predict_proba clf features in
  let! confidence := np_max probabilities in
  Ok (prediction, confidence).

(** [classify_gesture]; the bare [except:] turns every exception of the
    [try] block into [('none', 0.0)]. *)
Definition classify_gesture (r : GestureRecognizer) (landmarks : list Q)
  : Result (string * Q) :=
  match classifier r with
  | None => Ok ("none", 0%Q)
  | Some clf =>
      let features := landmarks in
      let body :=
        let! predictions := predict clf features in
        let! prediction := index0 predictions in
        let! probabilities := predict_proba clf features in
        let! confidence := np_max probabilities in
        if Qltb GESTURE_THRESHOLD confidence
        then Ok (default "unknown" (gesture_labels r !! prediction), confidence)
        else Ok ("none", confidence)
      in
      match body with
      | Ok v => Ok v
      | Exc _ => Ok ("none", 0%Q)
      end
  end.

(** Two stand-ins for the estimator, as the tests put a mock in
    [self.classifier].  [checking_classifier] does what a fitted
    scikit-learn estimator does with a row of the wrong width: it raises
    ValueError; on a row of FEATURES numbers it predicts class 0 with
    probability 0.9.  [seventh_class_classifier] was fitted on data with a
    class 6 and is sure of it. *)
Definition checking_classifier : Classifier :=
  {| predict := fun features =>
       if (length features =? FEATURES)%nat then Ok [0%Z]
       else Exc "ValueError";
     predict_proba := fun features =>
       if (length features =? FEATURES)%nat
       then Ok [9 # 10; 1 # 10; 0; 0; 0; 0]%Q
       else Exc "ValueError" |}.

Definition seventh_class_classifier : Classifier :=
  {| predict := fun _ => Ok [6%Z];
     predict_proba := fun _ => Ok [0; 0; 0; 0; 0; 0; 95 # 100]%Q |}.

(** The order in which iterating over [set(l)] yields its elements.  It
    depends on the strings' hashes, which change from one interpreter run to
    the next; all the language promises is each element once. *)
Record SetOrder := mkSetOrder {
  set_iter : list string -> list string;
  set_iter_NoDup : forall l, List.NoDup (set_iter l);
  set_iter_elems : forall l x, In x (set_iter l) <-> In x l
}.

(** [l.count(x)] *)
Definition count (l : list string) (x : string) : nat :=
  count_occ String.string_dec l x.

(** The scan of [max(iterable, key=key)]: a later element replaces the
    current best only when its key is strictly larger. *)
Fixpoint max_scan {A : Type} (key : A -> nat) (best : A) (rest : list A) : A :=
  match rest with
  | [] => best
  | x :: rest' =>
      if (key best <? key x)%nat
      then max_scan key x rest'
      else max_scan key best rest'
  end.

Definition py_max {A : Type} (key : A -> nat) (l : list A) : Result A :=
  match l with
  | [] => Exc "ValueError"
  | x :: rest => Ok (max_scan key x rest)
  end.

Definition set_gesture_buffer (b : list string) (r : GestureRecognizer)
  : GestureRecognizer :=
  {| classifier := classifier r;
     gesture_labels := gesture_labels r;
     gesture_buffer := b;
     buffer_size := buffer_size r |}.

(** The window after [append] and the conditional [pop(0)]. *)
Definition push_window (size : Z) (buffer : list string) (g : string)
  : list string :=
  let appended := (buffer ++ [g])%list in
  if (size <? Z.of_nat (length appended))%Z then tl appended else appended.

(** [smooth_gesture] *)
Definition smooth_gesture (O : SetOrder) (g : string) (r : GestureRecognizer)
  : Result string * GestureRecognizer :=
  let window := push_window (buffer_size r) (gesture_buffer r) g in
  let r' := set_gesture_buffer window r in
  if (3 <=? length window)%nat
  then (py_max (count window) (set_iter O window), r')
  else (Ok g, r').

(** The labels answered while [gs] is pushed, and the recognizer left. *)
Fixpoint smooth_all (O : SetOrder) (gs : list string) (r : GestureRecognizer)
  : list (Result string) * GestureRecognizer :=
  match gs with
  | [] => ([], r)
  | g :: gs' =>
      let '(out, r1) := smooth_gesture O g r in
      let '(outs, r2) := smooth_all O gs' r1 in
      (out :: outs, r2)
  end.

(** Two iteration orders a [set] can have: by first and by latest
    occurrence. *)
Fixpoint first_seen (l : list string) : list string :=
  match l with
  | [] => []
  | x :: l' =>
      x :: List.filter (fun y => negb (String.eqb x y)) (first_seen l')
  end.

Definition latest_seen (l : list string) : list string :=
  first_seen (rev l).

(** [first_seen] lists every element of the list once. *)
Lemma first_seen_elems (l : list string) (x : string) :
  In x (first_seen l) <-> In x l.
Proof.
  induction l as [|y l IH]; [reflexivity|]. cbn.
  rewrite filter_In, IH, Bool.negb_true_iff, String.eqb_neq.
  destruct (String.string_dec y x); tauto.
Qed.

Lemma first_seen_NoDup (l : list string) : List.NoDup (first_seen l).
Proof.
  induction l as [|y l IH]; cbn [first_seen]; constructor.
  - intros H. apply filter_In in H. destruct H as [_ H].
    apply Bool.negb_true_iff, String.eqb_neq in H. now apply H.
  - now apply List.NoDup_filter.
Qed.

Definition first_seen_order : SetOrder :=
  {| set_iter := first_seen;
     set_iter_NoDup := first_seen_NoDup;
     set_iter_elems := first_seen_elems |}.

Lemma latest_seen_elems (l : list string) (x : string) :
  In x (latest_seen l) <-> In x l.
Proof.
  unfold latest_seen. rewrite first_seen_elems. symmetry. apply in_rev.
Qed.

Definition latest_seen_order : SetOrder :=
  {| set_iter := latest_seen;
     set_iter_NoDup := fun l => first_seen_NoDup (rev l);
     set_iter_elems := latest_seen_elems |}.

(** The stabilized label as the specification words it: a label of highest
    count, and among those the one seen most recently. *)
Definition spec_stabilized (window : list string) : option string :=
  List.find
    (fun x => forallb (fun y => (count window y <=? count window x)%nat)
                window)
    (latest_seen window).

End Recognizer.

(** ** VoiceCommandHandler (modules/voice_commands.py) *)

Module Voice.

(** [needle in hay] on strings. *)
Fixpoint contains (needle hay : string) : bool :=
  if String.prefix needle hay then true
  else match hay with
       | EmptyString => false
       | String _ hay' => contains needle hay'
       end.

(** [needle] occurs in [hay]. *)
Definition is_substring (needle hay : string) : Prop :=
  exists before after, hay = before ++ needle ++ after.

(** [str.lower] on ASCII text. *)
Definition lower_ascii (a : ascii) : ascii :=
  let n := nat_of_ascii a in
  if ((65 <=? n) && (n <=? 90))%nat then ascii_of_nat (n + 32) else a.

Fixpoint lower (s : string) : string :=
  match s with
  | EmptyString => EmptyString
  | String a s' => String (lower_ascii a) (lower s')
  end.

(** [self.voice_commands]: phrase and command, in insertion order. *)
Definition init_voice_commands : list (string * string) :=
  [("open browser", "open_browser"); ("close browser", "close_browser");
   ("volume up", "volume_up"); ("volume down", "volume_down");
   ("mute", "mute_audio"); ("unmute", "unmute_audio");
   ("take screenshot", "screenshot"); ("open calculator", "open_calculator");
   ("open notepad", "open_notepad"); ("minimize window", "minimize_window");
   ("maximize window", "maximize_window"); ("switch window", "alt_tab");
   ("scroll up", "scroll_up"); ("scroll down", "scroll_down");
   ("zoom in", "zoom_in"); ("zoom out", "zoom_out");
   ("hello system", "greeting"); ("goodbye system", "goodbye")].

(** [process_command] *)
Fixpoint process_command (voice_commands : list (string * string))
    (spoken_text : string) : option string :=
  match voice_commands with
  | [] => None
  | (phrase, command) :: rest =>
      if contains phrase spoken_text then Some command
      else process_command rest spoken_text
  end.

(** What the microphone and the recognizer produced for one listen. *)
Inductive Heard :=
| Recognized (text : string)
| WaitTimeoutError
| UnknownValueError
| RequestError (msg : string).

(** [listen_for_command] *)
Definition listen_for_command (voice_commands : list (string * string))
    (h : Heard) : option string :=
  match h with
  | Recognized text => process_command voice_commands (lower text)
  | WaitTimeoutError => None
  | UnknownValueError => None
  | RequestError _ => None
  end.

(** [d[k] = v] on an insertion-ordered dictionary. *)
Fixpoint dict_set (d : list (string * string)) (k v : string)
  : list (string * string) :=
  match d with
  | [] => [(k, v)]
  | (k', v') :: d' =>
      if String.eqb k' k then (k', v) :: d' else (k', v') :: dict_set d' k v
  end.

(** [add_custom_command] *)
Definition add_custom_command (voice_commands : list (string * string))
    (phrase command : string) : list (string * string) :=
  dict_set voice_commands (lower phrase) command.

(** [resolve] as the specification words it: lower-case the phrase, then
    the token of the first pair whose key is a substring of it. *)
Definition spec_resolve (voice_commands : list (string * string))
    (phrase : string) : option string :=
  option_map snd
    (List.find (fun kv => contains (fst kv) (lower phrase)) voice_commands).

End Voice.

(** ** Frames (modules/gesture_recognition.py, continued) *)

Module Frames.
Import Recognizer.

(** One MediaPipe landmark: [lm.x], [lm.y], [lm.z]. *)
Record Landmark := mkLandmark {
  lm_x : Q;
  lm_y : Q;
  lm_z : Q
}.

(** [extract_landmarks]: the list grows by [extend] at each landmark. *)
Definition extract_landmarks (hand_landmarks : list Landmark) : list Q :=
  fold_left
    (fun landmarks lm => (landmarks ++ [lm_x lm; lm_y lm; lm_z lm])%list)
    hand_landmarks [].

(** The dictionary [process_frame] returns. *)
Record FrameResult := mkFrameResult {
  gesture : string;
  confidence : Q;
  landmarks : option (list Q);
  hand_detected : bool
}.

Definition no_hand : FrameResult :=
  {| gesture := "none"; confidence := 0; landmarks := None;
     hand_detected := false |}.

(** A camera frame, as far as [process_frame] can tell: what each of the
    calls it makes into OpenCV and MediaPipe with the frame does.  None of
    these calls is inside a [try], so what one of them raises leaves
    [process_frame]. *)
Record Frame := mkFrame {
  (** [cv2.cvtColor(frame, cv2.COLOR_BGR2RGB)], line 98. *)
  cvtColor : Result unit;
  (** [self.hands.process(rgb_frame).multi_hand_landmarks], line 99; []
      when the tracker found no hand. *)
  hands_process : Result (list (list Landmark));
  (** [self.mp_draw.draw_landmarks(frame, hand_landmarks, ...)], lines
      111-112. *)
  draw_landmarks : list Landmark -> Result unit
}.

(** [process_frame].  The loop body ends in [break], so only the first hand
    is looked at; it is drawn before it is classified, and the window is
    touched last, by [smooth_gesture]. *)
Definition process_frame (O : SetOrder) (frame : Frame)
    (r : GestureRecognizer) : Result FrameResult * GestureRecognizer :=
  match cvtColor frame with
  | Exc e => (Exc e, r)
  | Ok _ =>
      match hands_process frame with
      | Exc e => (Exc e, r)
      | Ok [] => (Ok no_hand, r)
      | Ok (hand_landmarks :: _) =>
          match draw_landmarks frame hand_landmarks with
          | Exc e => (Exc e, r)
          | Ok _ =>
              let features := extract_landmarks hand_landmarks in
              match classify_gesture r features with
              | Exc e => (Exc e, r)
              | Ok (raw, conf) =>
                  match smooth_gesture O raw r with
                  | (Exc e, r') => (Exc e, r')
                  | (Ok smoothed_gesture, r') =>
                      (Ok {| gesture := smoothed_gesture;
                             confidence := conf;
                             landmarks := Some features;
                             hand_detected := true |},
                       r')
                  end
              end
          end
      end
  end.

(** Calls of [process_frame] made one after the other on one recognizer,
    each with its result; a call that raised may be followed by another
    when the caller catches the exception. *)
Fixpoint process_frames (O : SetOrder) (frames : list Frame)
    (r : GestureRecognizer) : list (Result FrameResult) * GestureRecognizer :=
  match frames with
  | [] => ([], r)
  | frame :: frames' =>
      let '(out, r1) := process_frame O frame r in
      let '(outs, r2) := process_frames O frames' r1 in
      (out :: outs, r2)
  end.

End Frames.

(** ** The loop bodies of main.py *)

Module Main.
Import Controller Recognizer Frames Voice.

Record HandGestureVoiceSystem := mkSystem {
  gesture_recognizer : GestureRecognizer;
  voice_commands : list (string * string);
  system_controller : SystemController;
  running : bool
}.

(** [HandGestureVoiceSystem.__init__], as far as the loops use it. *)
Definition init (clf : option Classifier) : HandGestureVoiceSystem :=
  {| gesture_recognizer := Recognizer.init clf;
     voice_commands := init_voice_commands;
     system_controller := Controller.init;
     running := false |}.

(** How one call of [listen_for_command] ended: with one of the outcomes it
    handles itself, or with another exception, which it lets through. *)
Inductive Listened :=
| Finished (h : Heard)
| Failed (msg : string).

(** Python's truth value of a string. *)
Definition truthy (s : string) : bool :=
  negb (String.eqb s "").

(** One turn of [voice_loop] (lines 87-93); both loggers write to the
    logger named GestureVoiceSystem, hence to one trace. *)
Definition voice_loop_body (current_time : Q) (exec : Action -> Outcome)
    (l : Listened) (s : HandGestureVoiceSystem) : HandGestureVoiceSystem :=
  let set c := {| gesture_recognizer := gesture_recognizer s;
                  voice_commands := voice_commands s;
                  system_controller := c;
                  running := running s |} in
  match l with
  | Failed e =>
      set (emit [LogError ("Voice processing error: " ++ e)]
             (system_controller s))
  | Finished h =>
      match listen_for_command (voice_commands s) h with
      | None => s
      | Some command =>
          if truthy command
          then set (emit [LogInfo ("Voice command: " ++ command)]
                      (execute_voice_command current_time exec command
                         (system_controller s)))
          else s
      end
  end.

(** The frame [cap.read()] hands out, before it is mirrored:
    [cv2.flip(frame, 1)] (line 64) gives the frame [process_frame] is
    called with, or raises. *)
Record Captured := mkCaptured {
  cv2_flip : Result Frame
}.

(** One turn of [gesture_loop] up to the dispatch (lines 59-71); [read] is
    what [cap.read()] did: the pair (ret, frame) it returned or the
    exception it raised.  The loop has no [try]: what [cap.read],
    [cv2.flip] or [process_frame] raises ends the turn, and the loop. *)
Definition gesture_loop_body (O : SetOrder) (current_time : Q)
    (exec : Action -> Outcome) (read : Result (bool * Captured))
    (s : HandGestureVoiceSystem)
  : Result unit * HandGestureVoiceSystem :=
  match read with
  | Exc e => (Exc e, s)
  | Ok (false, _) => (Ok tt, s)
  | Ok (true, captured) =>
      match cv2_flip captured with
      | Exc e => (Exc e, s)
      | Ok frame =>
          let '(out, r') :=
            process_frame O frame (gesture_recognizer s) in
          let set c := {| gesture_recognizer := r';
                          voice_commands := voice_commands s;
                          system_controller := c;
                          running := running s |} in
          match out with
          | Exc e => (Exc e, set (system_controller s))
          | Ok gesture_result =>
              if String.eqb (gesture gesture_result) "none"
              then (Ok tt, set (system_controller s))
              else
                (Ok tt,
                 set (emit [LogInfo ("Gesture detected: "
                                     ++ gesture gesture_result)]
                        (execute_gesture_command current_time exec
                           (mkGestureResult (gesture gesture_result)
                              (confidence gesture_result)
                              (hand_detected gesture_result))
                           (system_controller s))))
          end
      end
  end.

End Main.

(** ** config/settings.py *)

Module Settings.

(** [max(a, b)] and [min(a, b)] on two numbers: the first argument is kept
    unless the second is strictly larger, or strictly smaller. *)
Definition py_max2 (a b : Q) : Q := if Qltb a b then b else a.
Definition py_min2 (a b : Q) : Q := if Qltb b a then b else a.

Definition MIN_DETECTION_CONFIDENCE : Q := 7 # 10.
Definition MIN_TRACKING_CONFIDENCE : Q := 5 # 10.

(** The clamp [validate_settings] applies to both confidences. *)
Definition clamp (x : Q) : Q := py_max2 0 (py_min2 1 x).

End Settings.

(** ** What an observer of the trace counts *)

Module Observations.
Import Controller.

(** Number of calls made to the logger ([Logger.info], [Logger.error]);
    how often a call is then written depends on the handlers attached. *)
Fixpoint log_entries (tr : list Event) : nat :=
  match tr with
  | [] => 0
  | Invoked _ :: tr' => log_entries tr'
  | _ :: tr' => S (log_entries tr')
  end.

(** The call to the logger an entry point makes after calling action
    [a]. *)
Definition log_line (exec : Action -> Outcome) (d : Dispatch) (a : Action)
  : Event :=
  match d, exec a with
  | FromGesture gr, Done =>
      LogInfo ("Executed gesture action: " ++ Controller.gesture gr)
  | FromGesture gr, Raised e =>
      LogError (("Error executing gesture " ++ Controller.gesture gr ++ ": ")
                ++ e)
  | FromVoice cmd, Done => LogInfo ("Executed voice command: " ++ cmd)
  | FromVoice cmd, Raised e =>
      LogError (("Error executing voice command " ++ cmd ++ ": ") ++ e)
  end.

(** The same dispatch offered at each of the times [ts]. *)
Definition repeated (exec : Action -> Outcome) (d : Dispatch) (ts : list Q)
  : list (Q * (Action -> Outcome) * Dispatch) :=
  map (fun t => (t, exec, d)) ts.

(** The labels a recognizer built by [__init__] can report. *)
Definition named (label : string) : Prop :=
  In label ["fist"; "palm"; "thumbs_up"; "peace"; "ok"; "point";
            "none"; "unknown"].

(** The labels are those of [__init__] and the window holds named labels. *)
Definition well_fed (r : Recognizer.GestureRecognizer) : Prop :=
  Recognizer.gesture_labels r
  = Recognizer.gesture_labels (Recognizer.init None)
  /\ forall y, In y (Recognizer.gesture_buffer r) -> named y.

(** A frame on which the library calls return and the tracker finds
    [multi_hand_landmarks]. *)
Definition seen (multi_hand_landmarks : list (list Frames.Landmark))
  : Frames.Frame :=
  {| Frames.cvtColor := Recognizer.Ok tt;
     Frames.hands_process := Recognizer.Ok multi_hand_landmarks;
     Frames.draw_landmarks := fun _ => Recognizer.Ok tt |}.

(** A [draw_landmarks] that, like MediaPipe's with HAND_CONNECTIONS,
    raises ValueError on a hand that lacks one of the 21 landmarks the
    connections name. *)
Definition checking_draw (hand_landmarks : list Frames.Landmark)
  : Recognizer.Result unit :=
  if (length hand_landmarks <? 21)%nat
  then Recognizer.Exc "ValueError"
  else Recognizer.Ok tt.

(** [d.get(k)] on an insertion-ordered dictionary. *)
Fixpoint dict_get (d : list (string * string)) (k : string)
  : option string :=
  match d with
  | [] => None
  | (k', v) :: d' => if String.eqb k' k then Some v else dict_get d' k
  end.

End Observations.

(** * Properties *)

Lemma Qltb_lt (x y : Q) : Qltb x y = true <-> (x < y)%Q.
Proof. unfold Qltb, Qlt. apply Z.ltb_lt. Qed.

Lemma Qltb_ge (x y : Q) : Qltb x y = false <-> (y <= x)%Q.
Proof. unfold Qltb, Qle. apply Z.ltb_ge. Qed.

(** ** The cooldown gate *)

Module ControllerFacts.
Import Controller.

Lemma can_execute_action_fresh c now token :
  last_action_time c !! token = None ->
  can_execute_action now token c
  = (true, set_last_action_time (<[token := now]> (last_action_time c)) c).
Proof. intros H. unfold can_execute_action. now rewrite H. Qed.

Lemma can_execute_action_cooled c now token last :
  last_action_time c !! token = Some last ->
  (action_cooldown c <= now - last)%Q ->
  can_execute_action now token c
  = (true, set_last_action_time (<[token := now]> (last_action_time c)) c).
Proof.
  intros H Hle. unfold can_execute_action. rewrite H.
  apply Qltb_ge in Hle. now rewrite Hle.
Qed.

Lemma can_execute_action_hot c now token last :
  last_action_time c !! token = Some last ->
  (now - last < action_cooldown c)%Q ->
  can_execute_action now token c = (false, c).
Proof.
  intros H Hlt. unfold can_execute_action. rewrite H.
  apply Qltb_lt in Hlt. now rewrite Hlt.
Qed.

(** Whatever the answer, only the timestamp table can change. *)
Lemma can_execute_action_frame c now token :
  let c' := snd (can_execute_action now token c) in
  gesture_actions c' = gesture_actions c
  /\ voice_actions c' = voice_actions c
  /\ action_cooldown c' = action_cooldown c
  /\ trace c' = trace c.
Proof.
  unfold can_execute_action.
  destruct (last_action_time c !! token) as [last|]; [destruct (Qltb _ _)|];
    cbn; auto.
Qed.

(** C2: [can_execute_action] answers true and records [now] for the token
    when the token has no timestamp or when [now - last >= d]; it answers
    false and returns the controller as it was when [now - last < d]. *)
Theorem can_execute_action_spec (c : SystemController) (now : Q)
    (token : string) :
  let d := action_cooldown c in
  let r := can_execute_action now token c in
  ((last_action_time c !! token = None
    \/ exists last, last_action_time c !! token = Some last
                    /\ (d <= now - last)%Q) ->
   fst r = true
   /\ last_action_time (snd r) !! token = Some now
   /\ snd r = set_last_action_time (<[token := now]> (last_action_time c)) c)
  /\ (forall last, last_action_time c !! token = Some last ->
      (now - last < d)%Q ->
      fst r = false /\ snd r = c).
Proof.
  cbv zeta. split.
  - intros [Hnone | (last & Hsome & Hle)].
    + rewrite (can_execute_action_fresh _ _ _ Hnone). cbn.
      rewrite lookup_insert_eq. auto.
    + rewrite (can_execute_action_cooled _ _ _ _ Hsome Hle). cbn.
      rewrite lookup_insert_eq. auto.
  - intros last Hsome Hlt.
    rewrite (can_execute_action_hot _ _ _ _ Hsome Hlt). auto.
Qed.

Lemma can_execute_action_spec_witness :
  fst (can_execute_action 10 "volume_up" init) = true
  /\ (let c := snd (can_execute_action 10 "volume_up" init) in
      fst (can_execute_action (21 # 2) "volume_up" c) = false
      /\ snd (can_execute_action (21 # 2) "volume_up" c) = c).
Proof.
  split.
  - apply (can_execute_action_spec init 10 "volume_up"). now left.
  - cbv zeta.
    apply (can_execute_action_spec
             (snd (can_execute_action 10 "volume_up" init))
             (21 # 2) "volume_up") with (last := 10%Q); reflexivity.
Defined.

Example admit_first_call :
  fst (can_execute_action 10 "volume_up" init) = true.
Proof. reflexivity. Qed.

Example reject_inside_window :
  let c := snd (can_execute_action 10 "volume_up" init) in
  can_execute_action (21 # 2) "volume_up" c = (false, c).
Proof. reflexivity. Qed.

Example admit_at_window_end :
  let c := snd (can_execute_action 10 "volume_up" init) in
  fst (can_execute_action 11 "volume_up" c) = true.
Proof. reflexivity. Qed.

Lemma can_execute_action_true c now token :
  fst (can_execute_action now token c) = true ->
  can_execute_action now token c
  = (true, set_last_action_time (<[token := now]> (last_action_time c)) c).
Proof.
  unfold can_execute_action.
  destruct (last_action_time c !! token) as [last|]; [destruct (Qltb _ _)|];
    cbn; congruence.
Qed.

Lemma can_execute_action_false c now token :
  fst (can_execute_action now token c) = false ->
  can_execute_action now token c = (false, c).
Proof.
  unfold can_execute_action.
  destruct (last_action_time c !! token) as [last|]; [destruct (Qltb _ _)|];
    cbn; congruence.
Qed.

Lemma invocations_app tr1 tr2 :
  invocations (tr1 ++ tr2) = invocations tr1 + invocations tr2.
Proof.
  induction tr1 as [|[a|m|m] tr1 IH]; cbn; auto.
Qed.

(** An admitted dispatch stamps its key, calls the action once and logs. *)
Lemma dispatch_admitted c d t exec a :
  resolved_action d c = Some a ->
  fst (can_execute_action t (cooldown_key d) c) = true ->
  exists entry,
    dispatch t exec d c
    = emit [Invoked a; entry]
        (set_last_action_time
           (<[cooldown_key d := t]> (last_action_time c)) c)
    /\ invocations [entry] = 0
    /\ (forall msg, exec a = Raised msg -> exists e, entry = LogError e).
Proof.
  intros Hres Hok. apply can_execute_action_true in Hok.
  destruct d as [gr|cmd]; cbn in *;
    [unfold execute_gesture_command | unfold execute_voice_command];
    cbn; rewrite Hres, Hok; unfold run_action;
    destruct (exec a) as [|m]; eexists; (split; [reflexivity|]);
    (split; [reflexivity|]); intros msg Hm; try discriminate; eauto.
Qed.

Lemma dispatch_rejected c d t exec :
  fst (can_execute_action t (cooldown_key d) c) = false ->
  dispatch t exec d c = c.
Proof.
  intros Hno. apply can_execute_action_false in Hno.
  destruct d as [gr|cmd]; cbn in *;
    [unfold execute_gesture_command | unfold execute_voice_command]; cbn.
  - destruct (gesture_actions c !! gesture gr); [now rewrite Hno | reflexivity].
  - destruct (voice_actions c !! cmd); [now rewrite Hno | reflexivity].
Qed.

Lemma resolved_action_stamped d c m es :
  resolved_action d (emit es (set_last_action_time m c)) = resolved_action d c.
Proof. now destruct d. Qed.

(** Inside the window of a stamp nothing is admitted for that key. *)
Lemma stamped_key_rejects c key t1 t2 es :
  (t2 - t1 < action_cooldown c)%Q ->
  fst (can_execute_action t2 key
         (emit es (set_last_action_time
                     (<[key := t1]> (last_action_time c)) c))) = false.
Proof.
  intros Hlt. unfold can_execute_action. cbn.
  rewrite lookup_insert_eq. apply Qltb_lt in Hlt. now rewrite Hlt.
Qed.

Lemma admit_all_cons t name calls c :
  admit_all ((t, name) :: calls) c
  = (fst (can_execute_action t name c)
       :: fst (admit_all calls (snd (can_execute_action t name c))),
     snd (admit_all calls (snd (can_execute_action t name c)))).
Proof.
  cbn [admit_all]. destruct (can_execute_action t name c) as [ok c1]. cbn.
  now destruct (admit_all calls c1).
Qed.

(** Calls on one token, each at least one cooldown after the one before it
    and the first of them admitted, are all admitted. *)
Lemma spaced_calls_all_admitted token (times : list Q) :
  forall (c : SystemController) (t0 : Q),
    fst (can_execute_action t0 token c) = true ->
    spaced (action_cooldown c) (t0 :: times) ->
    fst (admit_all (map (fun t => (t, token)) (t0 :: times)) c)
    = repeat true (length (t0 :: times)).
Proof.
  induction times as [|t1 times IH]; intros c t0 Hok Hspaced;
    cbn [map]; rewrite admit_all_cons; cbn [fst length repeat]; rewrite Hok.
  - reflexivity.
  - f_equal. destruct Hspaced as [Hgap Hspaced].
    rewrite (can_execute_action_true _ _ _ Hok). cbn [snd].
    apply (IH _ t1); [|exact Hspaced].
    erewrite can_execute_action_cooled; [reflexivity| |exact Hgap].
    cbn. apply lookup_insert_eq.
Qed.

(** Of two calls on one token less than one cooldown apart, the first
    admitted, the second is rejected. *)
Lemma second_call_in_window_rejected c token now1 now2 :
  fst (can_execute_action now1 token c) = true ->
  (now2 - now1 < action_cooldown c)%Q ->
  fst (can_execute_action now2 token
         (snd (can_execute_action now1 token c))) = false.
Proof.
  intros Hok Hlt. rewrite (can_execute_action_true _ _ _ Hok). cbn [snd].
  erewrite can_execute_action_hot; [reflexivity| |exact Hlt].
  cbn. apply lookup_insert_eq.
Qed.

(** The thumbs_up gesture and the spoken command volume_up both call
    [volume_up], 0.5 s apart with a cooldown of 1 s, and the action runs
    twice in either order: the gesture is stamped under "thumbs_up", the
    command under "volume_up". *)
Lemma thumbs_up_and_volume_up_both_fire :
  let g := FromGesture (mkGestureResult "thumbs_up" (9 # 10) true) in
  let v := FromVoice "volume_up" in
  let ok := fun _ : Action => Done in
  resolved_action g init = Some volume_up
  /\ resolved_action v init = Some volume_up
  /\ ((1 # 2) - 0 < action_cooldown init)%Q
  /\ invocations (trace (dispatch (1 # 2) ok v (dispatch 0 ok g init))) <> 1
  /\ invocations (trace (dispatch (1 # 2) ok g (dispatch 0 ok v init))) <> 1.
Proof.
  cbv zeta. repeat split; try reflexivity; vm_compute; discriminate.
Qed.

(** C1 (amended): the cooldown is keyed by the string the entry point hands
    to [can_execute_action], the gesture label for a gesture event and the
    command token for a voice event.  Two events with the same key, the
    first mapped to an action and admitted, the second less than one
    cooldown later, call exactly one action, whichever of them is the
    gesture and whichever the voice event. *)
Theorem same_key_fires_once (c : SystemController) (d1 d2 : Dispatch)
    (t1 t2 : Q) (exec1 exec2 : Action -> Outcome) :
  cooldown_key d1 = cooldown_key d2 ->
  is_Some (resolved_action d1 c) ->
  fst (can_execute_action t1 (cooldown_key d1) c) = true ->
  (t2 - t1 < action_cooldown c)%Q ->
  invocations (trace (dispatch t2 exec2 d2 (dispatch t1 exec1 d1 c)))
  = S (invocations (trace c)).
Proof.
  intros Hkey [a1 Ha1] Hok Hlt.
  destruct (dispatch_admitted c d1 t1 exec1 a1 Ha1 Hok)
    as (entry & -> & Hentry & _).
  rewrite dispatch_rejected.
  - cbn [emit trace]. rewrite invocations_app.
    change (invocations [Invoked a1; entry]) with (S (invocations [entry])).
    rewrite Hentry. cbn. lia.
  - rewrite <- Hkey. now apply stamped_key_rejects.
Qed.

Lemma same_key_fires_once_witness :
  let ok := fun _ : Action => Done in
  let shared_key :=
    mkController {[ "volume_up" := volume_up ]} (voice_actions init) ∅ 1 [] in
  let g := FromGesture (mkGestureResult "volume_up" (9 # 10) true) in
  let v := FromVoice "volume_up" in
  invocations (trace (dispatch (1 # 2) ok v (dispatch 0 ok v init))) = 1
  /\ invocations
       (trace (dispatch (1 # 2) ok v (dispatch 0 ok g shared_key))) = 1
  /\ invocations
       (trace (dispatch (1 # 2) ok g (dispatch 0 ok v shared_key))) = 1.
Proof.
  cbv zeta. split; [|split].
  - apply (same_key_fires_once init (FromVoice "volume_up")
             (FromVoice "volume_up") 0 (1 # 2)); try reflexivity;
      cbn; eauto.
  - apply (same_key_fires_once
             (mkController {[ "volume_up" := volume_up ]}
                (voice_actions init) ∅ 1 [])
             (FromGesture (mkGestureResult "volume_up" (9 # 10) true))
             (FromVoice "volume_up") 0 (1 # 2)); try reflexivity;
      cbn; eauto.
  - apply (same_key_fires_once
             (mkController {[ "volume_up" := volume_up ]}
                (voice_actions init) ∅ 1 [])
             (FromVoice "volume_up")
             (FromGesture (mkGestureResult "volume_up" (9 # 10) true))
             0 (1 # 2)); try reflexivity; cbn; eauto.
Defined.

(** C10: when the action of an admitted dispatch raises, the call was made,
    the failure is logged, the key keeps the timestamp of the admission,
    and every later dispatch of that key less than one cooldown after it
    leaves the controller as it is: no action is called. *)
Theorem failed_action_keeps_cooldown (c : SystemController) (d : Dispatch)
    (t1 : Q) (exec : Action -> Outcome) (a : Action) (msg : string)
    (later : list (Q * (Action -> Outcome) * Dispatch)) :
  resolved_action d c = Some a ->
  exec a = Raised msg ->
  fst (can_execute_action t1 (cooldown_key d) c) = true ->
  Forall (fun '(t, _, d') =>
            cooldown_key d' = cooldown_key d
            /\ (t - t1 < action_cooldown c)%Q) later ->
  let c1 := dispatch t1 exec d c in
  last_action_time c1 !! cooldown_key d = Some t1
  /\ (exists e, trace c1 = (trace c ++ [Invoked a; LogError e])%list)
  /\ dispatch_all later c1 = c1.
Proof.
  intros Hres Hraise Hok Hlater. cbv zeta.
  destruct (dispatch_admitted c d t1 exec a Hres Hok)
    as (entry & -> & _ & Hlog).
  destruct (Hlog msg Hraise) as [e ->].
  split; [cbn; apply lookup_insert_eq|].
  split; [exists e; reflexivity|].
  induction Hlater as [|[[t ex] d'] later [Hk Hlt] _ IH]; [reflexivity|].
  cbn [dispatch_all]. rewrite dispatch_rejected; [exact IH|].
  rewrite Hk. now apply stamped_key_rejects.
Qed.

Lemma failed_action_keeps_cooldown_witness :
  let boom := fun _ : Action => Raised "no display" in
  let ok := fun _ : Action => Done in
  let c1 := dispatch 0 boom (FromVoice "screenshot") init in
  last_action_time c1 !! "screenshot" = Some 0%Q
  /\ (exists e, trace c1 = [Invoked take_screenshot; LogError e])
  /\ dispatch_all [((1 # 4), ok, FromVoice "screenshot");
                   ((9 # 10), ok, FromVoice "screenshot")] c1 = c1.
Proof.
  cbv zeta.
  apply (failed_action_keeps_cooldown init (FromVoice "screenshot") 0
           (fun _ => Raised "no display") take_screenshot "no display"
           [((1 # 4), (fun _ => Done), FromVoice "screenshot");
            ((9 # 10), (fun _ => Done), FromVoice "screenshot")]);
    try reflexivity.
  repeat constructor.
Defined.

End ControllerFacts.

(** ** The two loops on one controller *)

Module RaceFacts.
Import Controller Race ControllerFacts.

(** A call that no other thread interrupts is [can_execute_action]. *)
Lemma call_alone_is_can_execute_action now name c :
  call_alone now name c = can_execute_action now name c.
Proof.
  unfold call_alone, can_execute_action, thread_step.
  destruct (last_action_time c !! name) as [last|];
    [destruct (Qltb _ _)|]; reflexivity.
Qed.

(** A step of a call on another name leaves the stamp of [token] alone. *)
Lemma thread_step_other_key now name token c pc :
  name <> token ->
  last_action_time (fst (thread_step now name c pc)) !! token
  = last_action_time c !! token.
Proof.
  intros Hne. unfold thread_step.
  destruct pc as [|t|b]; cbn.
  - destruct (last_action_time c !! name) as [last|];
      [destruct (Qltb _ _)|]; reflexivity.
  - now apply lookup_insert_ne.
  - reflexivity.
Qed.

Lemma run_serial_cons who t name calls c :
  run_serial ((who, t, name) :: calls) c
  = (fst (can_execute_action t name c)
       :: fst (run_serial calls (snd (can_execute_action t name c))),
     snd (run_serial calls (snd (can_execute_action t name c)))).
Proof.
  cbn [run_serial]. rewrite call_alone_is_can_execute_action.
  destruct (can_execute_action t name c) as [ok c1]. cbn.
  now destruct (run_serial calls c1).
Qed.

Lemma run_serial_cooldown calls c :
  action_cooldown (snd (run_serial calls c)) = action_cooldown c.
Proof.
  revert c. induction calls as [|[[who t] name] calls IH]; intros c;
    [reflexivity|].
  rewrite run_serial_cons. cbn. rewrite IH.
  apply (can_execute_action_frame c t name).
Qed.

(** What one call leaves under [token], given a stamp [L] no later than the
    call: a stamp between [L] and the time of the call. *)
Lemma stamp_after_call c t name token L :
  last_action_time c !! token = Some L ->
  (L <= t)%Q ->
  exists L', last_action_time (snd (can_execute_action t name c)) !! token
             = Some L'
             /\ (L <= L')%Q /\ (L' <= t)%Q.
Proof.
  intros HL Hle. unfold can_execute_action.
  destruct (last_action_time c !! name) as [last|] eqn:Hname;
    [destruct (Qltb _ _)|]; cbn.
  - exists L. repeat split; auto. apply Qle_refl.
  - destruct (decide (name = token)) as [->|Hne].
    + exists t. rewrite lookup_insert_eq. repeat split; auto. apply Qle_refl.
    + exists L. rewrite lookup_insert_ne by exact Hne.
      repeat split; auto. apply Qle_refl.
  - destruct (decide (name = token)) as [->|Hne]; [congruence|].
    exists L. rewrite lookup_insert_ne by exact Hne.
    repeat split; auto. apply Qle_refl.
Qed.

(** Once [token] is stamped [L], a later call on it is admitted only a full
    cooldown after [L]. *)
Lemma admitted_after_stamp calls :
  forall c token L j who tj,
    last_action_time c !! token = Some L ->
    (forall u, In u (map (fun x => snd (fst x)) calls) -> (L <= u)%Q) ->
    nondecreasing (map (fun x => snd (fst x)) calls) ->
    calls !! j = Some (who, tj, token) ->
    fst (run_serial calls c) !! j = Some true ->
    (action_cooldown c <= tj - L)%Q.
Proof.
  induction calls as [|[[who0 t0] name0] calls IH];
    intros c token L j who tj HL Hall Hmono Hj Hadm; [discriminate|].
  rewrite run_serial_cons in Hadm. cbn [fst] in Hadm.
  destruct j as [|j]; cbn in Hj, Hadm.
  - injection Hj as -> -> ->. injection Hadm as Hadm.
    unfold can_execute_action in Hadm. rewrite HL in Hadm.
    destruct (Qltb (tj - L) (action_cooldown c)) eqn:Hcmp;
      [discriminate|]. now apply Qltb_ge.
  - cbn in Hmono. destruct Hmono as [Hhead Hmono].
    assert (Ht0 : (L <= t0)%Q) by (apply Hall; cbn; auto).
    destruct (stamp_after_call c t0 name0 token L HL Ht0)
      as (L' & HL' & HLL' & HL't0).
    assert (Hcd : action_cooldown (snd (can_execute_action t0 name0 c))
                  = action_cooldown c)
      by apply (can_execute_action_frame c t0 name0).
    pose proof (IH _ token L' j who tj HL') as Hrec.
    rewrite Hcd in Hrec.
    assert (Hgoal : (action_cooldown c <= tj - L')%Q).
    { apply Hrec; auto.
      intros u Hu. apply Qle_trans with t0; auto. }
    lra.
Qed.

(** The method by itself is not atomic.  Two threads that call it directly
    on the same key, here "volume_up" at time 0, can each pass the test
    before the other has stored its timestamp: both calls answer true
    inside one cooldown interval, where either order of the two calls taken
    one after the other admits only the first.  The entry points of the
    controller never bring the two loops to one key
    ([init_tables_disjoint]). *)
Lemma overlapping_calls_both_admitted :
  let s := run [(GestureLoop, 0%Q); (VoiceLoop, 0%Q);
                (GestureLoop, 0%Q); (VoiceLoop, 0%Q)]
               (start init "volume_up" "volume_up") in
  snd (gesture_call s) = Returned true
  /\ snd (voice_call s) = Returned true
  /\ (0 - 0 < action_cooldown init)%Q
  /\ fst (run_serial [(GestureLoop, 0%Q, "volume_up");
                      (VoiceLoop, 0%Q, "volume_up")] init) = [true; false]
  /\ fst (run_serial [(VoiceLoop, 0%Q, "volume_up");
                      (GestureLoop, 0%Q, "volume_up")] init) = [true; false].
Proof. cbv zeta. repeat split. Qed.


(** When calls are taken one after the other, with a clock that never
    goes back, two admitted calls on the same token are at least one
    cooldown apart, whichever loop issued each of them. *)
Lemma serial_calls_are_spaced (calls : list (Loop * Q * string)) :
  forall (c : SystemController) (i j : nat) (who_i who_j : Loop)
         (t_i t_j : Q) (token : string),
    nondecreasing (map (fun x => snd (fst x)) calls) ->
    (i < j)%nat ->
    calls !! i = Some (who_i, t_i, token) ->
    calls !! j = Some (who_j, t_j, token) ->
    fst (run_serial calls c) !! i = Some true ->
    fst (run_serial calls c) !! j = Some true ->
    (action_cooldown c <= t_j - t_i)%Q.
Proof.
  induction calls as [|[[who0 t0] name0] calls IH];
    intros c i j who_i who_j t_i t_j token Hmono Hij Hi Hj Hai Haj;
    [discriminate|].
  rewrite run_serial_cons in Hai, Haj. cbn [fst] in Hai, Haj.
  cbn in Hmono. destruct Hmono as [Hhead Hmono].
  pose proof (can_execute_action_frame c t0 name0) as (_ & _ & Hcd & _).
  cbv zeta in Hcd.
  destruct j as [|j]; [lia|]. cbn in Hj, Haj.
  destruct i as [|i]; cbn in Hi, Hai.
  - injection Hi as -> -> ->. injection Hai as Hai.
    rewrite <- Hcd.
    apply (admitted_after_stamp calls _ token t_i j who_j t_j); auto.
    rewrite (can_execute_action_true _ _ _ Hai). cbn.
    apply lookup_insert_eq.
  - rewrite <- Hcd.
    apply (IH _ i j who_i who_j t_i t_j token); auto. lia.
Qed.

Lemma serial_calls_are_spaced_witness :
  let calls := [(GestureLoop, 0%Q, "volume_up");
                (VoiceLoop, 1 # 2, "volume_up");
                (VoiceLoop, 3 # 2, "volume_up")] in
  fst (run_serial calls init) = [true; false; true]
  /\ (action_cooldown init <= (3 # 2) - 0)%Q.
Proof.
  cbv zeta. split; [reflexivity|].
  apply (serial_calls_are_spaced
           [(GestureLoop, 0%Q, "volume_up");
            (VoiceLoop, 1 # 2, "volume_up");
            (VoiceLoop, 3 # 2, "volume_up")]
           init 0 2 GestureLoop VoiceLoop 0 (3 # 2) "volume_up");
    try reflexivity; [|lia].
  cbn. repeat split; intros u Hu;
    repeat match type of Hu with
           | _ \/ _ => destruct Hu as [<-|Hu]
           | False => destruct Hu
           end; vm_compute; discriminate.
Defined.

End RaceFacts.

(** ** The loops at the gate *)

Module InterleavingFacts.
Import Controller Race Loops ControllerFacts RaceFacts.























End InterleavingFacts.

(** ** The smoothing buffer *)

Module RecognizerFacts.
Import Recognizer.

Lemma push_window_room size buffer g :
  (Z.of_nat (length buffer) < size)%Z ->
  push_window size buffer g = (buffer ++ [g])%list.
Proof.
  intros Hlt. unfold push_window. rewrite length_app. cbn.
  destruct (Z.ltb_spec size (Z.of_nat (length buffer + 1))); [lia|reflexivity].
Qed.

Lemma push_window_full size oldest buffer g :
  Z.of_nat (length (oldest :: buffer)) = size ->
  push_window size (oldest :: buffer) g = (buffer ++ [g])%list.
Proof.
  intros Heq. unfold push_window. rewrite length_app.
  destruct (Z.ltb_spec size
              (Z.of_nat (length (oldest :: buffer) + length [g])));
    [reflexivity|cbn in *; lia].
Qed.

Lemma push_window_length size buffer g :
  (0 <= size)%Z ->
  (Z.of_nat (length buffer) <= size)%Z ->
  (Z.of_nat (length (push_window size buffer g)) <= size)%Z.
Proof.
  intros Hsize Hlen. unfold push_window.
  destruct (Z.ltb_spec size (Z.of_nat (length (buffer ++ [g])))) as [Hlt|Hge];
    [|exact Hge].
  destruct buffer as [|x buffer]; cbn in *; [lia|].
  rewrite length_app in *. cbn in *. lia.
Qed.

Lemma smooth_gesture_buffer O g r :
  gesture_buffer (snd (smooth_gesture O g r))
  = push_window (buffer_size r) (gesture_buffer r) g
  /\ buffer_size (snd (smooth_gesture O g r)) = buffer_size r.
Proof.
  unfold smooth_gesture.
  now destruct (3 <=? length (push_window _ _ _))%nat.
Qed.

Lemma smooth_all_cons O g gs r :
  smooth_all O (g :: gs) r
  = (fst (smooth_gesture O g r)
       :: fst (smooth_all O gs (snd (smooth_gesture O g r))),
     snd (smooth_all O gs (snd (smooth_gesture O g r)))).
Proof.
  cbn [smooth_all]. destruct (smooth_gesture O g r) as [out r1]. cbn.
  now destruct (smooth_all O gs r1).
Qed.

(** C9: starting from a window no longer than N = [buffer_size] (the empty
    one of [__init__], N = GESTURE_SMOOTHING = 5), the window is no longer
    than N after every push of every sequence of pushes; a push appends the
    label when there is room and drops the oldest entry when the window is
    full. *)
Theorem window_never_exceeds_size (O : SetOrder) (gs : list string) :
  forall r : GestureRecognizer,
    (0 <= buffer_size r)%Z ->
    (Z.of_nat (length (gesture_buffer r)) <= buffer_size r)%Z ->
    let r' := snd (smooth_all O gs r) in
    buffer_size r' = buffer_size r
    /\ (Z.of_nat (length (gesture_buffer r')) <= buffer_size r)%Z
    /\ (forall g, (Z.of_nat (length (gesture_buffer r')) < buffer_size r)%Z ->
        gesture_buffer (snd (smooth_gesture O g r'))
        = (gesture_buffer r' ++ [g])%list)
    /\ (forall g oldest rest,
        gesture_buffer r' = oldest :: rest ->
        Z.of_nat (length (gesture_buffer r')) = buffer_size r ->
        gesture_buffer (snd (smooth_gesture O g r')) = (rest ++ [g])%list).
Proof.
  induction gs as [|g0 gs IH]; intros r Hsize Hlen; cbv zeta.
  - cbn [smooth_all snd]. split; [reflexivity|]. split; [exact Hlen|]. split.
    + intros g Hroom.
      rewrite (proj1 (smooth_gesture_buffer O g r)).
      now apply push_window_room.
    + intros g oldest rest Hbuf Hfull.
      rewrite (proj1 (smooth_gesture_buffer O g r)), Hbuf.
      apply push_window_full. now rewrite <- Hbuf.
  - rewrite smooth_all_cons. cbn [snd].
    destruct (smooth_gesture_buffer O g0 r) as [Hb Hs].
    specialize (IH (snd (smooth_gesture O g0 r))).
    cbv zeta in IH. rewrite Hs, Hb in IH.
    apply IH; [exact Hsize|]. now apply push_window_length.
Qed.

Lemma window_never_exceeds_size_witness :
  let r' := snd (smooth_all first_seen_order
                   ["fist"; "palm"; "fist"; "fist"; "palm"; "ok"; "ok"]
                   (init None)) in
  gesture_buffer r' = ["fist"; "fist"; "palm"; "ok"; "ok"]
  /\ (Z.of_nat (length (gesture_buffer r')) <= GESTURE_SMOOTHING)%Z.
Proof.
  cbv zeta. split; [reflexivity|].
  apply (window_never_exceeds_size first_seen_order
           ["fist"; "palm"; "fist"; "fist"; "palm"; "ok"; "ok"]
           (init None)); unfold init, GESTURE_SMOOTHING; cbn; lia.
Defined.

(** What the scan of [max] returns: an element of largest key, and the
    first such element in the order scanned. *)
Lemma max_scan_first_largest {A : Type} (key : A -> nat) (rest : list A) :
  forall best : A,
    let m := max_scan key best rest in
    (forall y, In y (best :: rest) -> key y <= key m)
    /\ exists before after,
         best :: rest = (before ++ m :: after)%list
         /\ forall y, In y before -> key y < key m.
Proof.
  induction rest as [|x rest IH]; intros best; cbv zeta; cbn [max_scan].
  - split.
    + intros y [<-|[]]. lia.
    + exists [], []. split; [reflexivity|]. intros y [].
  - destruct (Nat.ltb_spec (key best) (key x)) as [Hlt|Hge].
    + destruct (IH x) as (Hmax & before & after & Hsplit & Hbefore).
      split.
      * intros y [<-|Hy]; [|now apply Hmax].
        specialize (Hmax x (or_introl eq_refl)). lia.
      * exists (best :: before), after. split.
        -- cbn. now rewrite Hsplit.
        -- intros y [<-|Hy]; [|now apply Hbefore].
           specialize (Hmax x (or_introl eq_refl)). lia.
    + destruct (IH best) as (Hmax & before & after & Hsplit & Hbefore).
      split.
      * intros y [<-|[<-|Hy]].
        -- apply Hmax. now left.
        -- specialize (Hmax best (or_introl eq_refl)). lia.
        -- apply Hmax. now right.
      * destruct before as [|b before]; cbn in Hsplit.
        -- injection Hsplit as Hm Hrest.
           exists [], (x :: rest). split; [cbn; now rewrite <- Hm|].
           intros y [].
        -- injection Hsplit as <- Hrest.
           exists (best :: x :: before), after. split.
           ++ cbn. do 2 f_equal. exact Hrest.
           ++ intros y [<-|[<-|Hy]].
              ** apply Hbefore. now left.
              ** specialize (Hbefore best (or_introl eq_refl)). lia.
              ** apply Hbefore. now right.
Qed.

(** [max(set(window), key=window.count)] on a window that is not empty. *)
Lemma py_max_count (O : SetOrder) (window : list string) :
  window <> [] ->
  exists x,
    py_max (count window) (set_iter O window) = Ok x
    /\ In x window
    /\ (forall y, In y window -> count window y <= count window x)
    /\ exists before after,
         set_iter O window = (before ++ x :: after)%list
         /\ forall y, In y before -> count window y < count window x.
Proof.
  intros Hne.
  destruct (set_iter O window) as [|best rest] eqn:Hiter.
  - destruct window as [|w window]; [congruence|].
    assert (Hin : In w (set_iter O (w :: window)))
      by (apply set_iter_elems; now left).
    rewrite Hiter in Hin. destruct Hin.
  - cbn [py_max]. exists (max_scan (count window) best rest).
    destruct (max_scan_first_largest (count window) rest best)
      as (Hmax & before & after & Hsplit & Hbefore).
    split; [reflexivity|]. split; [|split].
    + apply (set_iter_elems O). rewrite Hiter, Hsplit.
      apply in_or_app. right. now left.
    + intros y Hy. apply Hmax. rewrite <- Hiter. now apply set_iter_elems.
    + exists before, after. split; assumption.
Qed.

Lemma smooth_gesture_fst O g r :
  fst (smooth_gesture O g r)
  = let window := push_window (buffer_size r) (gesture_buffer r) g in
    if (3 <=? length window)%nat
    then py_max (count window) (set_iter O window)
    else Ok g.
Proof.
  unfold smooth_gesture.
  now destruct (3 <=? length (push_window _ _ _))%nat.
Qed.

Lemma smooth_gesture_snd O g r :
  snd (smooth_gesture O g r)
  = set_gesture_buffer (push_window (buffer_size r) (gesture_buffer r) g) r.
Proof.
  unfold smooth_gesture.
  now destruct (3 <=? length (push_window _ _ _))%nat.
Qed.

(** Four pushes fist, palm, fist, palm in an interpreter whose set yields
    the labels in order of first occurrence: the window holds two of each,
    palm is the one seen most recently, and the answer is fist. *)
Lemma tie_follows_set_order :
  let r3 := snd (smooth_all first_seen_order ["fist"; "palm"; "fist"]
                   (init None)) in
  let out := fst (smooth_gesture first_seen_order "palm" r3) in
  let window :=
    gesture_buffer (snd (smooth_gesture first_seen_order "palm" r3)) in
  window = ["fist"; "palm"; "fist"; "palm"]
  /\ count window "fist" = 2
  /\ count window "palm" = 2
  /\ spec_stabilized window = Some "palm"
  /\ out = Ok "fist"
  /\ out <> Ok "palm".
Proof. cbv zeta. repeat split. discriminate. Qed.

(** The same pushes where the set yields the labels latest first: palm. *)
Example tie_under_latest_seen_order :
  let r3 := snd (smooth_all latest_seen_order ["fist"; "palm"; "fist"]
                   (init None)) in
  fst (smooth_gesture latest_seen_order "palm" r3) = Ok "palm".
Proof. reflexivity. Qed.

(** C4 (amended): a push answers the raw label while the window, after the
    append, holds fewer than 3 entries; otherwise it answers a label of the
    window whose count no other label exceeds, and among labels of equal
    highest count the one that iterating over the set of the window yields
    first, an order that recency does not decide.  Pushing fist, palm, fist,
    fist, palm into the empty buffer of size 5 answers fist on the last
    push, whatever that order is. *)
Theorem smooth_gesture_majority (O : SetOrder) (g : string)
    (r : GestureRecognizer) :
  let out := fst (smooth_gesture O g r) in
  let window := gesture_buffer (snd (smooth_gesture O g r)) in
  (length window < 3 -> out = Ok g)
  /\ (3 <= length window ->
      exists x,
        out = Ok x
        /\ In x window
        /\ (forall y, In y window -> count window y <= count window x)
        /\ exists before after,
             set_iter O window = (before ++ x :: after)%list
             /\ forall y, In y before -> count window y < count window x)
  /\ (forall clf,
        List.last (fst (smooth_all O ["fist"; "palm"; "fist"; "fist"; "palm"]
                     (init clf))) (Exc "no push")
        = Ok "fist").
Proof.
  cbv zeta. rewrite smooth_gesture_fst, smooth_gesture_snd.
  cbn [gesture_buffer set_gesture_buffer].
  cbv zeta.
  set (window := push_window (buffer_size r) (gesture_buffer r) g).
  split; [|split].
  - intros Hshort.
    destruct (Nat.leb_spec 3 (length window)); [lia|reflexivity].
  - intros Hlong.
    destruct (Nat.leb_spec 3 (length window)); [|lia].
    apply py_max_count. intros Hnil. rewrite Hnil in Hlong. cbn in Hlong. lia.
  - intros clf. rewrite !smooth_all_cons. cbn [fst List.last].
    rewrite smooth_gesture_fst, !smooth_gesture_snd. cbn.
    match goal with
    | |- context [set_iter O ?w] =>
        change w with ["fist"; "palm"; "fist"; "fist"; "palm"]
    end.
    cbn [length].
    destruct (py_max_count O ["fist"; "palm"; "fist"; "fist"; "palm"])
      as (x & -> & Hin & Hmax & _); [discriminate|].
    cbn in Hin.
    destruct Hin as [<-|[<-|[<-|[<-|[<-|[]]]]]]; try reflexivity;
      specialize (Hmax "fist" (or_introl eq_refl));
      vm_compute in Hmax; lia.
Qed.

Lemma smooth_gesture_majority_witness :
  fst (smooth_gesture first_seen_order "palm"
         (snd (smooth_gesture first_seen_order "fist" (init None))))
  = Ok "palm".
Proof.
  apply (smooth_gesture_majority first_seen_order "palm"
           (snd (smooth_gesture first_seen_order "fist" (init None)))).
  vm_compute. lia.
Defined.

(** ** The classifier adapter *)

Lemma classify_gesture_unfold (r : GestureRecognizer) (landmarks : list Q) :
  classify_gesture r landmarks
  = match classifier r with
    | None => Ok ("none", 0%Q)
    | Some clf =>
        match invoke clf landmarks with
        | Ok (prediction, confidence) =>
            if Qltb GESTURE_THRESHOLD confidence
            then Ok (default "unknown" (gesture_labels r !! prediction),
                     confidence)
            else Ok ("none", confidence)
        | Exc _ => Ok ("none", 0%Q)
        end
    end.
Proof.
  unfold classify_gesture, invoke.
  destruct (classifier r) as [clf|]; [|reflexivity].
  destruct (predict clf landmarks) as [ps|e]; [|reflexivity]. cbn.
  destruct (index0 ps) as [p|e]; [|reflexivity]. cbn.
  destruct (predict_proba clf landmarks) as [qs|e]; [|reflexivity]. cbn.
  destruct (np_max qs) as [q|e]; [|reflexivity]. cbn.
  now destruct (Qltb GESTURE_THRESHOLD q).
Qed.

(** C5: [classify_gesture] answers ('none', 0.0) when there is no
    classifier or when a call on it raises, ('none', confidence) when the
    confidence is not above GESTURE_THRESHOLD, a label other than 'none'
    only with a confidence strictly above the threshold, and it never
    raises. *)
Theorem classify_gesture_degrades (r : GestureRecognizer)
    (landmarks : list Q) :
  (classifier r = None -> classify_gesture r landmarks = Ok ("none", 0%Q))
  /\ (forall clf e,
        classifier r = Some clf -> invoke clf landmarks = Exc e ->
        classify_gesture r landmarks = Ok ("none", 0%Q))
  /\ (forall clf prediction confidence,
        classifier r = Some clf ->
        invoke clf landmarks = Ok (prediction, confidence) ->
        ~ (GESTURE_THRESHOLD < confidence)%Q ->
        classify_gesture r landmarks = Ok ("none", confidence))
  /\ (forall label confidence,
        classify_gesture r landmarks = Ok (label, confidence) ->
        label <> "none" ->
        (GESTURE_THRESHOLD < confidence)%Q)
  /\ (exists answer, classify_gesture r landmarks = Ok answer).
Proof.
  rewrite classify_gesture_unfold. repeat split.
  - now intros ->.
  - intros clf e -> Hexc. now rewrite Hexc.
  - intros clf prediction confidence -> Hans Hlow. rewrite Hans.
    destruct (Qltb GESTURE_THRESHOLD confidence) eqn:Hcmp; [|reflexivity].
    apply Qltb_lt in Hcmp. contradiction.
  - intros label confidence Hret Hlabel.
    destruct (classifier r) as [clf|];
      [destruct (invoke clf landmarks) as [[p q]|e];
       [destruct (Qltb GESTURE_THRESHOLD q) eqn:Hcmp|]|];
      injection Hret as Hl Hq; try (symmetry in Hl; contradiction).
    apply Qltb_lt in Hcmp. now rewrite <- Hq.
  - destruct (classifier r) as [clf|];
      [destruct (invoke clf landmarks) as [[p q]|e];
       [destruct (Qltb GESTURE_THRESHOLD q)|]|]; eauto.
Qed.

Lemma classify_gesture_degrades_witness :
  classify_gesture (init (Some checking_classifier)) [1; 2; 3]%Q
  = Ok ("none", 0%Q)
  /\ classify_gesture
       (init (Some (mkClassifier (fun _ => Ok [2%Z])
                      (fun _ => Ok [1 # 10; 2 # 10; 7 # 10]%Q))))
       (repeat (1 # 2)%Q FEATURES)
     = Ok ("none", 7 # 10).
Proof.
  split.
  - apply (classify_gesture_degrades
             (init (Some checking_classifier)) [1; 2; 3]%Q)
      with (clf := checking_classifier) (e := "ValueError"); reflexivity.
  - apply (classify_gesture_degrades
             (init (Some (mkClassifier (fun _ => Ok [2%Z])
                            (fun _ => Ok [1 # 10; 2 # 10; 7 # 10]%Q))))
             (repeat (1 # 2)%Q FEATURES))
      with (clf := mkClassifier (fun _ => Ok [2%Z])
                     (fun _ => Ok [1 # 10; 2 # 10; 7 # 10]%Q))
           (prediction := 2%Z); try reflexivity.
    vm_compute. discriminate.
Defined.

(** A row of three numbers in place of FEATURES = 63: the classifier raises
    ValueError on it, and [classify_gesture] answers ('none', 0.0) instead
    of raising. *)
Lemma short_vector_not_raised :
  let landmarks := [1; 2; 3]%Q in
  let r := init (Some checking_classifier) in
  length landmarks <> FEATURES
  /\ predict checking_classifier landmarks = Exc "ValueError"
  /\ classify_gesture r landmarks = Ok ("none", 0%Q)
  /\ forall e, classify_gesture r landmarks <> Exc e.
Proof. cbv zeta. repeat split; discriminate. Qed.

(** C7 (amended): [classify_gesture] does not check the length of the
    feature vector: a vector whose length differs from FEATURES is passed
    to the classifier as it is, and what the classifier makes of it decides
    the answer as for any other vector; when the classifier raises on it
    the bare [except] turns the error into ('none', 0.0), and nothing is
    raised to the caller. *)
Theorem wrong_length_reaches_classifier (r : GestureRecognizer)
    (clf : Classifier) (landmarks : list Q) :
  classifier r = Some clf ->
  length landmarks <> FEATURES ->
  (forall prediction confidence,
     invoke clf landmarks = Ok (prediction, confidence) ->
     classify_gesture r landmarks
     = if Qltb GESTURE_THRESHOLD confidence
       then Ok (default "unknown" (gesture_labels r !! prediction),
                confidence)
       else Ok ("none", confidence))
  /\ (forall e, predict clf landmarks = Exc e ->
                classify_gesture r landmarks = Ok ("none", 0%Q))
  /\ (forall e, classify_gesture r landmarks <> Exc e).
Proof.
  intros Hclf _. rewrite classify_gesture_unfold, Hclf. repeat split.
  - intros prediction confidence Hans. now rewrite Hans.
  - intros e He. unfold invoke. now rewrite He.
  - intros e.
    destruct (invoke clf landmarks) as [[p q]|e'];
      [destruct (Qltb GESTURE_THRESHOLD q)|]; discriminate.
Qed.

Lemma wrong_length_reaches_classifier_witness :
  let lenient := mkClassifier (fun _ => Ok [0%Z])
                   (fun _ => Ok [9 # 10; 1 # 10; 0; 0; 0; 0]%Q) in
  classify_gesture (init (Some lenient)) [1; 2; 3]%Q = Ok ("fist", 9 # 10)
  /\ classify_gesture (init (Some checking_classifier))
       (repeat (1 # 2)%Q 60)
     = Ok ("none", 0%Q).
Proof.
  cbv zeta. split.
  - destruct (wrong_length_reaches_classifier
                (init (Some (mkClassifier (fun _ => Ok [0%Z])
                               (fun _ => Ok [9 # 10; 1 # 10; 0; 0; 0; 0]%Q))))
                (mkClassifier (fun _ => Ok [0%Z])
                   (fun _ => Ok [9 # 10; 1 # 10; 0; 0; 0; 0]%Q))
                [1; 2; 3]%Q) as (Hpass & _ & _).
    + reflexivity.
    + vm_compute. discriminate.
    + apply (Hpass 0%Z (9 # 10)). reflexivity.
  - destruct (wrong_length_reaches_classifier
                (init (Some checking_classifier)) checking_classifier
                (repeat (1 # 2)%Q 60)) as (_ & Hraise & _).
    + reflexivity.
    + vm_compute. discriminate.
    + apply (Hraise "ValueError"). reflexivity.
Defined.

(** A classifier sure of a class 6, which [gesture_labels] does not name:
    the label answered is 'unknown', neither a gesture of the vocabulary
    nor 'none'. *)
Lemma seventh_class_is_unknown :
  let r := init (Some seventh_class_classifier) in
  let landmarks := repeat (1 # 2)%Q FEATURES in
  classify_gesture r landmarks = Ok ("unknown", 95 # 100)
  /\ ~ In "unknown"
        ["fist"; "palm"; "thumbs_up"; "peace"; "ok"; "point"; "none"].
Proof.
  cbv zeta. split; [reflexivity|]. cbn.
  intros H; repeat destruct H as [H|H]; try discriminate H; exact H.
Qed.

Lemma init_label_named (clf : option Classifier) (prediction : Z) :
  In (default "unknown" (gesture_labels (init clf) !! prediction))
     ["fist"; "palm"; "thumbs_up"; "peace"; "ok"; "point"; "unknown"].
Proof.
  destruct (gesture_labels (init clf) !! prediction) as [label|] eqn:Hl;
    cbn [default]; [|cbn; tauto].
  apply elem_of_map_to_list in Hl.
  assert (Hlist : map_to_list (gesture_labels (init clf))
                  = [(5, "point"); (3, "peace"); (4, "ok");
                     (2, "thumbs_up"); (1, "palm"); (0, "fist")]%Z)
    by (vm_compute; reflexivity).
  rewrite Hlist in Hl.
  repeat (apply elem_of_cons in Hl; destruct Hl as [Hl|Hl];
          [injection Hl as _ ->; cbn; tauto|]).
  inversion Hl.
Qed.

Lemma init_label_outside (clf : option Classifier) (prediction : Z) :
  ~ (0 <= prediction <= 5)%Z ->
  gesture_labels (init clf) !! prediction = None.
Proof.
  intros Hout.
  destruct (gesture_labels (init clf) !! prediction) as [label|] eqn:Hl;
    [|reflexivity].
  exfalso. apply elem_of_map_to_list in Hl.
  assert (Hlist : map_to_list (gesture_labels (init clf))
                  = [(5, "point"); (3, "peace"); (4, "ok");
                     (2, "thumbs_up"); (1, "palm"); (0, "fist")]%Z)
    by (vm_compute; reflexivity).
  rewrite Hlist in Hl.
  repeat (apply elem_of_cons in Hl; destruct Hl as [Hl|Hl];
          [injection Hl as -> _; lia|]).
  inversion Hl.
Qed.

(** C8 (amended): with the labels of [__init__], every call of
    [classify_gesture] returns a label that is a gesture of the vocabulary,
    'none' or 'unknown', and the label is 'unknown' exactly when the
    classifier answered a prediction outside 0..5 with a confidence above
    the threshold. *)
Theorem classify_gesture_label_range (clf : option Classifier)
    (landmarks : list Q) :
  exists label confidence,
    classify_gesture (init clf) landmarks = Ok (label, confidence)
    /\ In label ["fist"; "palm"; "thumbs_up"; "peace"; "ok"; "point";
                 "none"; "unknown"]
    /\ (label = "unknown"
        <-> (GESTURE_THRESHOLD < confidence)%Q
            /\ exists c prediction,
                 clf = Some c
                 /\ invoke c landmarks = Ok (prediction, confidence)
                 /\ ~ (0 <= prediction <= 5)%Z).
Proof.
  rewrite classify_gesture_unfold. cbn [classifier init].
  destruct clf as [c|].
  2:{ exists "none", 0%Q. split; [reflexivity|]. split; [cbn; tauto|].
      split; [discriminate|]. intros (_ & c & p & H & _). discriminate. }
  destruct (invoke c landmarks) as [[p q]|e] eqn:Hinv.
  2:{ exists "none", 0%Q. split; [reflexivity|]. split; [cbn; tauto|].
      split; [discriminate|].
      intros (_ & c' & p & H & Hinv' & _). injection H as <-.
      rewrite Hinv in Hinv'. discriminate. }
  destruct (Qltb GESTURE_THRESHOLD q) eqn:Hcmp.
  2:{ exists "none", q. split; [reflexivity|]. split; [cbn; tauto|].
      split; [discriminate|].
      intros (Habove & _). apply Qltb_lt in Habove. congruence. }
  eexists _, q. split; [reflexivity|]. split.
  - pose proof (init_label_named (Some c) p) as Hin. cbn in Hin |- *. tauto.
  - split.
    + intros Hunknown. split; [now apply Qltb_lt|].
      exists c, p. split; [reflexivity|]. split; [exact Hinv|].
      intros Hrange.
      assert (Hp : (p = 0 \/ p = 1 \/ p = 2 \/ p = 3 \/ p = 4 \/ p = 5)%Z)
        by lia.
      destruct Hp as [-> | [-> | [-> | [-> | [-> | ->]]]]];
        vm_compute in Hunknown; discriminate.
    + intros (_ & c' & p' & H & Hinv' & Hout). injection H as <-.
      rewrite Hinv in Hinv'. injection Hinv' as <-.
      now rewrite (init_label_outside (Some c) p Hout).
Qed.

End RecognizerFacts.

(** ** The voice phrase mapper *)

Module VoiceFacts.
Import Voice.

Lemma prefix_append (needle : string) :
  forall hay,
    String.prefix needle hay = true <-> exists rest, hay = needle ++ rest.
Proof.
  induction needle as [|a needle IH]; intros hay.
  - split; [intros _; now exists hay|]. now destruct hay.
  - destruct hay as [|b hay]; cbn.
    + split; [discriminate|]. intros [rest H]. discriminate.
    + destruct (ascii_dec a b) as [->|Hne].
      * rewrite IH. split; intros [rest H]; exists rest.
        -- now rewrite H.
        -- now injection H.
      * split; [discriminate|]. intros [rest H]. injection H as H _.
        congruence.
Qed.

Lemma contains_prefix (needle hay : string) :
  String.prefix needle hay = true -> contains needle hay = true.
Proof. intros H. destruct hay; cbn [contains]; now rewrite H. Qed.

(** [contains] decides occurrence. *)
Lemma contains_is_substring (needle hay : string) :
  contains needle hay = true <-> is_substring needle hay.
Proof.
  unfold is_substring. split.
  - induction hay as [|c hay IH]; cbn [contains];
      destruct (String.prefix needle _) eqn:Hp.
    + intros _. apply prefix_append in Hp. destruct Hp as [rest ->].
      now exists "", rest.
    + discriminate.
    + intros _. apply prefix_append in Hp. destruct Hp as [rest ->].
      now exists "", rest.
    + intros H. destruct (IH H) as (before & after & ->).
      now exists (String c before), after.
  - intros (before & after & ->).
    induction before as [|c before IH].
    + cbn [append]. apply contains_prefix, prefix_append. eauto.
    + change (contains needle (String c (before ++ needle ++ after)) = true).
      cbn [contains]. rewrite IH.
      now destruct (String.prefix needle _).
Qed.

Lemma contains_not_substring (needle hay : string) :
  contains needle hay = false <-> ~ is_substring needle hay.
Proof.
  rewrite <- contains_is_substring. now destruct (contains needle hay).
Qed.

Lemma process_command_none voice_commands spoken_text :
  process_command voice_commands spoken_text = None
  <-> forall phrase command,
        In (phrase, command) voice_commands ->
        ~ is_substring phrase spoken_text.
Proof.
  induction voice_commands as [|[k tok] rest IH]; cbn [process_command].
  - split; [intros _ ? ? []|reflexivity].
  - destruct (contains k spoken_text) eqn:Hk.
    + split; [discriminate|]. intros Hall. exfalso.
      apply (Hall k tok); [now left|]. now apply contains_is_substring.
    + rewrite IH. split.
      * intros Hall phrase command [H|H]; [|now apply (Hall _ command)].
        injection H as <- <-. now apply contains_not_substring.
      * intros Hall phrase command H. apply (Hall _ command). now right.
Qed.

Lemma process_command_some voice_commands spoken_text token :
  process_command voice_commands spoken_text = Some token
  <-> exists before phrase after,
        voice_commands = (before ++ (phrase, token) :: after)%list
        /\ is_substring phrase spoken_text
        /\ forall phrase' command',
             In (phrase', command') before ->
             ~ is_substring phrase' spoken_text.
Proof.
  induction voice_commands as [|[k tok] rest IH]; cbn [process_command].
  - split; [discriminate|]. intros (before & phrase & after & H & _).
    now destruct before.
  - destruct (contains k spoken_text) eqn:Hk.
    + split.
      * intros H. injection H as ->. exists [], k, rest.
        split; [reflexivity|]. split; [now apply contains_is_substring|].
        intros ? ? [].
      * intros (before & phrase & after & H & Hsub & Hbefore).
        destruct before as [|b before]; cbn in H.
        -- now injection H as _ ->.
        -- injection H as <- _. exfalso.
           apply (Hbefore k tok); [now left|].
           now apply contains_is_substring.
    + rewrite IH. split.
      * intros (before & phrase & after & -> & Hsub & Hbefore).
        exists ((k, tok) :: before), phrase, after.
        split; [reflexivity|]. split; [exact Hsub|].
        intros phrase' command' [H|H]; [|now apply (Hbefore _ command')].
        injection H as <- <-. now apply contains_not_substring.
      * intros (before & phrase & after & H & Hsub & Hbefore).
        destruct before as [|b before]; cbn in H.
        -- injection H as -> _ _. apply contains_not_substring in Hk.
           contradiction.
        -- injection H as _ ->. exists before, phrase, after.
           split; [reflexivity|]. split; [exact Hsub|].
           intros phrase' command' Hin. apply (Hbefore _ command').
           now right.
Qed.

(** The phrase arrives with capitals: [process_command] compares it as it
    is and finds nothing, where lower-casing it first would find
    "open browser". *)
Lemma capitals_are_not_matched :
  let voice_commands := [("open browser", "open_browser")] in
  process_command voice_commands "Please OPEN Browser now" = None
  /\ spec_resolve voice_commands "Please OPEN Browser now"
     = Some "open_browser"
  /\ process_command voice_commands "Please OPEN Browser now"
     <> spec_resolve voice_commands "Please OPEN Browser now".
Proof. cbv zeta. repeat split. discriminate. Qed.

(** C6 (amended): [process_command] compares the phrase as it is given, not
    lower-cased; it returns the token of the first pair, in insertion
    order, whose key is a substring of the phrase, and None when no key is.
    The lower-casing is done by [listen_for_command] on the recognized text
    before it calls [process_command].  With the mapping
    {"open browser": "open_browser"}, "please open browser now" gives
    "open_browser" and "unknown request" gives None. *)
Theorem process_command_first_match
    (voice_commands : list (string * string)) (spoken_text : string) :
  (process_command voice_commands spoken_text = None
   <-> forall phrase command,
         In (phrase, command) voice_commands ->
         ~ is_substring phrase spoken_text)
  /\ (forall token,
        process_command voice_commands spoken_text = Some token
        <-> exists before phrase after,
              voice_commands = (before ++ (phrase, token) :: after)%list
              /\ is_substring phrase spoken_text
              /\ forall phrase' command',
                   In (phrase', command') before ->
                   ~ is_substring phrase' spoken_text)
  /\ listen_for_command voice_commands (Recognized spoken_text)
     = spec_resolve voice_commands spoken_text
  /\ process_command [("open browser", "open_browser")]
       "please open browser now" = Some "open_browser"
  /\ process_command [("open browser", "open_browser")]
       "unknown request" = None.
Proof.
  split; [apply process_command_none|].
  split; [intros token; apply process_command_some|].
  split; [|split; reflexivity].
  cbn [listen_for_command]. unfold spec_resolve.
  generalize (lower spoken_text) as s. intros s.
  induction voice_commands as [|[k tok] rest IH]; [reflexivity|].
  cbn [process_command List.find fst].
  now destruct (contains k s).
Qed.

Lemma process_command_first_match_witness :
  process_command init_voice_commands "turn the volume up" = Some "volume_up".
Proof.
  destruct (process_command_first_match init_voice_commands
              "turn the volume up") as (_ & Hsome & _).
  apply Hsome.
  exists [("open browser", "open_browser"); ("close browser", "close_browser")],
    "volume up",
    (tl (tl (tl init_voice_commands))).
  split; [reflexivity|]. split.
  - now exists "turn the ", "".
  - intros phrase' command' Hin. apply contains_not_substring.
    destruct Hin as [H|[H|[]]]; injection H as <- _; reflexivity.
Defined.

End VoiceFacts.

(** ** The dispatcher over runs of events *)

Module DispatchFacts.
Import Controller Observations ControllerFacts.

(** A dispatch either leaves the controller as it is, or stamps its key,
    calls the action and calls the logger once. *)
Lemma dispatch_eq c d t exec :
  dispatch t exec d c
  = match resolved_action d c with
    | Some a =>
        if fst (can_execute_action t (cooldown_key d) c)
        then emit [Invoked a; log_line exec d a]
               (set_last_action_time
                  (<[cooldown_key d := t]> (last_action_time c)) c)
        else c
    | None => c
    end.
Proof.
  destruct (resolved_action d c) as [a|] eqn:Hres.
  - destruct (fst (can_execute_action t (cooldown_key d) c)) eqn:Hok.
    + pose proof (can_execute_action_true _ _ _ Hok) as Hcan.
      destruct d as [gr|cmd]; cbn in *;
        [unfold execute_gesture_command | unfold execute_voice_command];
        cbn; rewrite Hres, Hcan; unfold run_action, log_line;
        destruct (exec a) as [|m]; reflexivity.
    + now apply dispatch_rejected.
  - destruct d as [gr|cmd]; cbn in *;
      [unfold execute_gesture_command | unfold execute_voice_command];
      cbn; now rewrite Hres.
Qed.

Lemma log_line_counts exec d a :
  invocations [log_line exec d a] = 0 /\ log_entries [log_line exec d a] = 1.
Proof. unfold log_line. destruct d, (exec a); now split. Qed.

(** The answer of the gate depends on the stamp of the token and on the
    cooldown only. *)
Lemma can_execute_action_decision c c' now token :
  last_action_time c' !! token = last_action_time c !! token ->
  action_cooldown c' = action_cooldown c ->
  fst (can_execute_action now token c')
  = fst (can_execute_action now token c).
Proof.
  intros Hl Hc. unfold can_execute_action. rewrite Hl, Hc.
  destruct (last_action_time c !! token) as [last|];
    [destruct (Qltb _ _)|]; reflexivity.
Qed.

(** X1: with a cooldown of zero or less the gate is open: a call whose
    token has no stamp later than the clock is admitted. *)
Theorem zero_cooldown_always_admits (c : SystemController) (now : Q)
    (token : string) :
  (action_cooldown c <= 0)%Q ->
  (forall last, last_action_time c !! token = Some last -> (last <= now)%Q) ->
  fst (can_execute_action now token c) = true.
Proof.
  intros Hcd Hpast. unfold can_execute_action.
  destruct (last_action_time c !! token) as [last|] eqn:Hl; [|reflexivity].
  specialize (Hpast last eq_refl).
  destruct (Qltb (now - last) (action_cooldown c)) eqn:Hcmp; [|reflexivity].
  apply Qltb_lt in Hcmp. lra.
Qed.

Lemma zero_cooldown_always_admits_witness :
  let c := mkController (gesture_actions init) (voice_actions init)
             {[ "volume_up" := 7%Q ]} 0 [] in
  fst (can_execute_action 7 "volume_up" c) = true.
Proof.
  cbv zeta.
  apply (zero_cooldown_always_admits
           (mkController (gesture_actions init) (voice_actions init)
              {[ "volume_up" := 7%Q ]} 0 []) 7 "volume_up").
  - cbn. lra.
  - intros last H. cbn in H. rewrite lookup_singleton_eq in H.
    injection H as <-. lra.
Defined.

(** A dispatch changes neither table nor the cooldown, and no stamp but
    the one of its own key. *)
Lemma dispatch_frame c d t exec :
  let c' := dispatch t exec d c in
  gesture_actions c' = gesture_actions c
  /\ voice_actions c' = voice_actions c
  /\ action_cooldown c' = action_cooldown c
  /\ (forall k, k <> cooldown_key d ->
       last_action_time c' !! k = last_action_time c !! k).
Proof.
  cbv zeta. rewrite dispatch_eq.
  destruct (resolved_action d c) as [a|];
    [destruct (fst (can_execute_action t (cooldown_key d) c))|];
    cbn; repeat split; auto.
  intros k Hk. now apply lookup_insert_ne.
Qed.

Lemma resolved_action_frame d c c' :
  gesture_actions c' = gesture_actions c ->
  voice_actions c' = voice_actions c ->
  resolved_action d c' = resolved_action d c.
Proof. intros Hg Hv. destruct d; cbn; congruence. Qed.

(** X2: events with different cooldown keys do not disturb each other:
    after any dispatch of another key, whether it was dropped, executed or
    its action raised, a dispatch appends to the trace exactly what it
    would have appended without it. *)
Theorem other_key_dispatch_unaffected (c : SystemController)
    (d1 d2 : Dispatch) (t1 t2 : Q) (exec1 exec2 : Action -> Outcome) :
  cooldown_key d1 <> cooldown_key d2 ->
  exists appended,
    trace (dispatch t2 exec2 d2 c) = (trace c ++ appended)%list
    /\ trace (dispatch t2 exec2 d2 (dispatch t1 exec1 d1 c))
       = (trace (dispatch t1 exec1 d1 c) ++ appended)%list.
Proof.
  intros Hne.
  destruct (dispatch_frame c d1 t1 exec1) as (Hg & Hv & Hcd & Hother).
  cbv zeta in *.
  set (c1 := dispatch t1 exec1 d1 c) in *.
  rewrite (dispatch_eq c d2), (dispatch_eq c1 d2).
  rewrite (resolved_action_frame d2 c c1 Hg Hv).
  rewrite (can_execute_action_decision c c1 t2 (cooldown_key d2));
    [|apply Hother; congruence|exact Hcd].
  destruct (resolved_action d2 c) as [a|];
    [destruct (fst (can_execute_action t2 (cooldown_key d2) c))|].
  - eexists. split; reflexivity.
  - exists []. now rewrite !app_nil_r.
  - exists []. now rewrite !app_nil_r.
Qed.

Lemma other_key_dispatch_unaffected_witness :
  let boom := fun _ : Action => Raised "no display" in
  let ok := fun _ : Action => Done in
  exists appended,
    trace (dispatch (1 # 10) ok (FromVoice "volume_up") init)
    = ([] ++ appended)%list
    /\ trace (dispatch (1 # 10) ok (FromVoice "volume_up")
                (dispatch 0 boom (FromVoice "screenshot") init))
       = (trace (dispatch 0 boom (FromVoice "screenshot") init)
            ++ appended)%list.
Proof.
  cbv zeta.
  apply (other_key_dispatch_unaffected init (FromVoice "screenshot")
           (FromVoice "volume_up") 0 (1 # 10)
           (fun _ => Raised "no display") (fun _ => Done)).
  discriminate.
Defined.

Lemma dispatch_all_app ds1 ds2 c :
  dispatch_all (ds1 ++ ds2) c = dispatch_all ds2 (dispatch_all ds1 c).
Proof.
  revert c. induction ds1 as [|[[t exec] d] ds1 IH]; intros c;
    [reflexivity|]. cbn. apply IH.
Qed.

(** X3: along any run of dispatches the two tables and the cooldown stay
    as they were, no stamp is ever removed, and when every stamped token
    was a key of one of the tables at the start, it is so at the end: the
    stamp table never grows beyond the keys of the tables. *)
Theorem stamps_stay_within_tables
    (ds : list (Q * (Action -> Outcome) * Dispatch)) :
  forall c : SystemController,
    (forall k, is_Some (last_action_time c !! k) ->
               is_Some (gesture_actions c !! k)
               \/ is_Some (voice_actions c !! k)) ->
    let c' := dispatch_all ds c in
    gesture_actions c' = gesture_actions c
    /\ voice_actions c' = voice_actions c
    /\ action_cooldown c' = action_cooldown c
    /\ (forall k, is_Some (last_action_time c !! k) ->
                  is_Some (last_action_time c' !! k))
    /\ (forall k, is_Some (last_action_time c' !! k) ->
                  is_Some (gesture_actions c !! k)
                  \/ is_Some (voice_actions c !! k)).
Proof.
  induction ds as [|[[t exec] d] ds IH]; intros c Hinv; cbv zeta.
  - cbn. repeat split; auto.
  - cbn [dispatch_all].
    destruct (dispatch_frame c d t exec) as (Hg & Hv & Hcd & Hother).
    cbv zeta in *.
    assert (Hkeep : forall k, is_Some (last_action_time c !! k) ->
                    is_Some (last_action_time (dispatch t exec d c) !! k)).
    { intros k Hk. destruct (decide (k = cooldown_key d)) as [->|Hk'];
        [|now rewrite Hother].
      rewrite dispatch_eq.
      destruct (resolved_action d c) as [a|];
        [destruct (fst (can_execute_action t (cooldown_key d) c))|]; auto.
      cbn. rewrite lookup_insert_eq. eauto. }
    assert (Hinv1 : forall k,
               is_Some (last_action_time (dispatch t exec d c) !! k) ->
               is_Some (gesture_actions (dispatch t exec d c) !! k)
               \/ is_Some (voice_actions (dispatch t exec d c) !! k)).
    { intros k Hk. rewrite Hg, Hv.
      destruct (decide (k = cooldown_key d)) as [->|Hk'];
        [|rewrite Hother in Hk by exact Hk'; now apply Hinv].
      rewrite dispatch_eq in Hk.
      destruct (resolved_action d c) as [a|] eqn:Hres;
        [|now apply Hinv].
      destruct d as [gr|cmd]; cbn in Hres |- *; rewrite Hres; eauto. }
    destruct (IH _ Hinv1) as (Hg' & Hv' & Hcd' & Hkeep' & Hin').
    rewrite Hg', Hv', Hcd'. repeat split; auto.
    intros k Hk. rewrite <- Hg, <- Hv. now apply Hin'.
Qed.

Lemma stamps_stay_within_tables_witness :
  let ok := fun _ : Action => Done in
  let c' := dispatch_all
              [(0%Q, ok, FromVoice "volume_up");
               (1 # 2, ok, FromVoice "launch rockets");
               (1 # 2, ok,
                FromGesture (mkGestureResult "fist" (9 # 10) true))]
              init in
  gesture_actions c' = gesture_actions init
  /\ voice_actions c' = voice_actions init
  /\ action_cooldown c' = action_cooldown init
  /\ last_action_time c' !! "launch rockets" = None.
Proof.
  cbv zeta.
  destruct (stamps_stay_within_tables
           [(0%Q, (fun _ => Done), FromVoice "volume_up");
            (1 # 2, (fun _ => Done), FromVoice "launch rockets");
            (1 # 2, (fun _ => Done),
             FromGesture (mkGestureResult "fist" (9 # 10) true))]
           init) as (Hg & Hv & Hcd & _ & Hin).
  { intros k [v Hk]. cbn in Hk. rewrite lookup_empty in Hk. discriminate. }
  split; [exact Hg|]. split; [exact Hv|]. split; [exact Hcd|].
  destruct (last_action_time _ !! "launch rockets") as [t|] eqn:Hl;
    [|reflexivity].
  exfalso. cbv zeta in Hin.
  destruct (Hin "launch rockets") as [[a Ha]|[a Ha]];
    [rewrite Hl; eauto|discriminate Ha..].
Defined.

Lemma log_entries_app tr1 tr2 :
  log_entries (tr1 ++ tr2) = log_entries tr1 + log_entries tr2.
Proof.
  induction tr1 as [|[a|m|m] tr1 IH]; cbn; auto.
Qed.

(** X4: along any run of dispatches the trace only grows, each dispatch
    calls at most one action, and each action called is followed at once by
    one call to the logger, [Logger.info] when the action returned and
    [Logger.error] when it raised; the logger is called for nothing
    else. *)
Theorem every_invocation_is_logged
    (ds : list (Q * (Action -> Outcome) * Dispatch)) :
  forall c : SystemController,
    let c' := dispatch_all ds c in
    exists executed : list (Action * (Action -> Outcome) * Dispatch),
      length executed <= length ds
      /\ (forall a exec d,
            In (a, exec, d) executed ->
            resolved_action d c = Some a
            /\ (exists t, In (t, exec, d) ds)
            /\ match exec a with
               | Done => exists m, log_line exec d a = LogInfo m
               | Raised _ => exists m, log_line exec d a = LogError m
               end)
      /\ trace c'
         = (trace c
              ++ flat_map (fun '(a, exec, d) =>
                             [Invoked a; log_line exec d a]) executed)%list
      /\ invocations (trace c') = invocations (trace c) + length executed
      /\ log_entries (trace c') = log_entries (trace c) + length executed.
Proof.
  induction ds as [|[[t exec] d] ds IH]; intros c; cbv zeta.
  - exists []. cbn. rewrite app_nil_r.
    split; [lia|]. split; [intros ? ? ? []|]. repeat split; lia.
  - cbn [dispatch_all length].
    destruct (IH (dispatch t exec d c))
      as (executed & Hlen & Hin & Htr & Hinv & Hlog).
    cbv zeta in *.
    destruct (dispatch_frame c d t exec) as (Hg & Hv & _ & _).
    cbv zeta in Hg, Hv.
    assert (Hin' : forall a exec0 d0,
               In (a, exec0, d0) executed ->
               resolved_action d0 c = Some a
               /\ (exists t0, In (t0, exec0, d0) ((t, exec, d) :: ds))
               /\ match exec0 a with
                  | Done => exists m, log_line exec0 d0 a = LogInfo m
                  | Raised _ => exists m, log_line exec0 d0 a = LogError m
                  end).
    { intros a exec0 d0 H. destruct (Hin a exec0 d0 H) as (Hr & [t0 Ht0] & Hk).
      rewrite (resolved_action_frame d0 c _ Hg Hv) in Hr.
      split; [exact Hr|]. split; [exists t0; now right|exact Hk]. }
    set (f := (fun '(a, exec0, d0) => [Invoked a; log_line exec0 d0 a])
              : Action * (Action -> Outcome) * Dispatch -> list Event) in *.
    assert (Hstep : exists step,
               length step <= 1
               /\ trace (dispatch t exec d c)
                  = (trace c ++ flat_map f step)%list
               /\ invocations (flat_map f step) = length step
               /\ log_entries (flat_map f step) = length step
               /\ forall a exec0 d0,
                    In (a, exec0, d0) step ->
                    resolved_action d0 c = Some a
                    /\ (exists t0, In (t0, exec0, d0) ((t, exec, d) :: ds))
                    /\ match exec0 a with
                       | Done => exists m, log_line exec0 d0 a = LogInfo m
                       | Raised _ =>
                           exists m, log_line exec0 d0 a = LogError m
                       end).
    { rewrite dispatch_eq.
      destruct (resolved_action d c) as [a|] eqn:Hres;
        [destruct (fst (can_execute_action t (cooldown_key d) c))|].
      - exists [(a, exec, d)].
        destruct (log_line_counts exec d a) as [Hi Hl].
        cbn [flat_map f app length emit trace set_last_action_time].
        change (invocations [Invoked a; log_line exec d a])
          with (S (invocations [log_line exec d a])).
        change (log_entries [Invoked a; log_line exec d a])
          with (log_entries [log_line exec d a]).
        rewrite Hi, Hl.
        split; [lia|]. split; [reflexivity|]. split; [reflexivity|].
        split; [reflexivity|].
        intros a0 exec0 d0 [H|[]]. injection H as <- <- <-.
        split; [exact Hres|]. split; [exists t; now left|].
        unfold log_line. destruct d, (exec a); eauto.
      - exists []. cbn. rewrite app_nil_r.
        split; [lia|]. split; [reflexivity|]. split; [reflexivity|].
        split; [reflexivity|]. intros ? ? ? [].
      - exists []. cbn. rewrite app_nil_r.
        split; [lia|]. split; [reflexivity|]. split; [reflexivity|].
        split; [reflexivity|]. intros ? ? ? []. }
    destruct Hstep as (step & Hs1 & Hstr & Hsi & Hsl & Hsin).
    exists (step ++ executed)%list.
    rewrite Hinv, Hlog, Htr, Hstr, flat_map_app, length_app.
    rewrite !invocations_app, !log_entries_app, Hsi, Hsl, <- app_assoc.
    split; [lia|]. split; [|split; [reflexivity|split; lia]].
    intros a exec0 d0 H. apply in_app_or in H.
    destruct H as [H|H]; [now apply Hsin|now apply Hin'].
Qed.

Example failed_and_dropped_and_done :
  let boom := fun _ : Action => Raised "no display" in
  let ok := fun _ : Action => Done in
  trace (dispatch_all
           [(0%Q, boom, FromVoice "screenshot");
            (1 # 2, ok, FromVoice "screenshot");
            (1 # 2, ok, FromVoice "zoom_in")] init)
  = [Invoked take_screenshot;
     LogError "Error executing voice command screenshot: no display";
     Invoked zoom_in; LogInfo "Executed voice command: zoom_in"].
Proof. reflexivity. Qed.

(** X5: no false rejection: the same event offered again and again, each
    time at least one cooldown after the time before, the first time
    admitted, calls its action and writes its log line every time. *)
Theorem spaced_dispatches_all_executed (exec : Action -> Outcome)
    (d : Dispatch) (a : Action) (times : list Q) :
  forall (c : SystemController) (t0 : Q),
    resolved_action d c = Some a ->
    fst (can_execute_action t0 (cooldown_key d) c) = true ->
    spaced (action_cooldown c) (t0 :: times) ->
    trace (dispatch_all (repeated exec d (t0 :: times)) c)
    = (trace c
         ++ concat (map (fun _ => [Invoked a; log_line exec d a])
                      (t0 :: times)))%list.
Proof.
  induction times as [|t1 times IH]; intros c t0 Hres Hok Hspaced;
    change (dispatch_all (repeated exec d (t0 :: ?ts)) c)
      with (dispatch_all (repeated exec d ts) (dispatch t0 exec d c));
    rewrite (dispatch_eq c d t0), Hres, Hok.
  - reflexivity.
  - destruct Hspaced as [Hgap Hspaced].
    set (c1 := emit _ _).
    assert (Hres1 : resolved_action d c1 = Some a)
      by (rewrite <- Hres; now destruct d).
    assert (Hok1 : fst (can_execute_action t1 (cooldown_key d) c1) = true).
    { unfold can_execute_action, c1. cbn. rewrite lookup_insert_eq.
      apply Qltb_ge in Hgap. now rewrite Hgap. }
    rewrite (IH c1 t1 Hres1 Hok1 Hspaced).
    unfold c1. cbn [emit trace set_last_action_time map concat].
    now rewrite <- !app_assoc.
Qed.

Lemma spaced_dispatches_all_executed_witness :
  let ok := fun _ : Action => Done in
  trace (dispatch_all
           (repeated ok (FromVoice "scroll_down") [0; 1; 5 # 2]%Q) init)
  = concat (map (fun _ => [Invoked scroll_down;
                           log_line ok (FromVoice "scroll_down")
                             scroll_down])
              [0; 1; 5 # 2]%Q).
Proof.
  cbv zeta.
  apply (spaced_dispatches_all_executed (fun _ => Done)
           (FromVoice "scroll_down") scroll_down [1; 5 # 2]%Q init 0);
    try reflexivity.
  cbn. split; [|split; [|exact I]]; lra.
Defined.

End DispatchFacts.

(** ** The smoothing window over runs of pushes *)

Module SmoothingFacts.
Import Recognizer RecognizerFacts.

Lemma tl_skipn {A : Type} (l : list A) : tl l = skipn 1 l.
Proof. now destruct l. Qed.

Lemma push_window_skipn size buffer g :
  (0 <= size)%Z ->
  (Z.of_nat (length buffer) <= size)%Z ->
  push_window size buffer g
  = skipn (length (buffer ++ [g]) - Z.to_nat size) (buffer ++ [g]).
Proof.
  intros Hsize Hlen. unfold push_window. rewrite length_app. cbn [length].
  destruct (Z.ltb_spec size (Z.of_nat (length buffer + 1))) as [Hlt|Hge].
  - rewrite tl_skipn. f_equal. lia.
  - replace (length buffer + 1 - Z.to_nat size) with 0 by lia. reflexivity.
Qed.

Lemma smooth_all_buffer (O : SetOrder) (gs : list string) :
  forall r : GestureRecognizer,
    (0 <= buffer_size r)%Z ->
    (Z.of_nat (length (gesture_buffer r)) <= buffer_size r)%Z ->
    gesture_buffer (snd (smooth_all O gs r))
    = skipn (length (gesture_buffer r ++ gs) - Z.to_nat (buffer_size r))
        (gesture_buffer r ++ gs).
Proof.
  induction gs as [|g gs IH]; intros r Hsize Hlen.
  - cbn [smooth_all snd]. rewrite app_nil_r.
    replace (length (gesture_buffer r) - Z.to_nat (buffer_size r)) with 0
      by lia.
    reflexivity.
  - rewrite smooth_all_cons. cbn [snd].
    destruct (smooth_gesture_buffer O g r) as [Hb Hs].
    rewrite IH; rewrite ?Hs, ?Hb;
      [|exact Hsize|now apply push_window_length].
    rewrite (push_window_skipn _ _ _ Hsize Hlen).
    set (B := (gesture_buffer r ++ [g])%list).
    set (k1 := length B - Z.to_nat (buffer_size r)).
    assert (HB : (gesture_buffer r ++ g :: gs = B ++ gs)%list)
      by (unfold B; now rewrite <- app_assoc).
    assert (Hk1 : k1 <= length B) by (unfold k1; lia).
    assert (Hlen' : length B = length (gesture_buffer r) + 1)
      by (unfold B; now rewrite length_app).
    rewrite HB.
    replace (skipn k1 B ++ gs)%list with (skipn k1 (B ++ gs)).
    2:{ rewrite skipn_app. replace (k1 - length B) with 0 by lia.
        reflexivity. }
    rewrite skipn_skipn. f_equal.
    rewrite length_skipn, length_app. unfold k1. lia.
Qed.

(** X6: the window is the last N labels offered: from a window [w] no
    longer than N = [buffer_size], after the pushes [gs] the buffer holds
    the last N entries of [w ++ gs], all of them while there are fewer
    than N. *)
Theorem window_is_last_pushes (O : SetOrder) (gs : list string)
    (r : GestureRecognizer) :
  (0 <= buffer_size r)%Z ->
  (Z.of_nat (length (gesture_buffer r)) <= buffer_size r)%Z ->
  gesture_buffer (snd (smooth_all O gs r))
  = skipn (length (gesture_buffer r ++ gs) - Z.to_nat (buffer_size r))
      (gesture_buffer r ++ gs).
Proof. apply smooth_all_buffer. Qed.

Lemma window_is_last_pushes_witness :
  gesture_buffer
    (snd (smooth_all first_seen_order
            ["fist"; "palm"; "ok"; "ok"; "peace"; "point"; "palm"]
            (init None)))
  = ["ok"; "ok"; "peace"; "point"; "palm"].
Proof.
  apply (window_is_last_pushes first_seen_order
           ["fist"; "palm"; "ok"; "ok"; "peace"; "point"; "palm"]
           (init None)); unfold init, GESTURE_SMOOTHING; cbn; lia.
Defined.

Lemma plurality_answer (O : SetOrder) (g : string) (r : GestureRecognizer)
    (x : string) :
  let window := push_window (buffer_size r) (gesture_buffer r) g in
  3 <= length window ->
  In x window ->
  (forall y, In y window -> y <> x -> count window y < count window x) ->
  fst (smooth_gesture O g r) = Ok x.
Proof.
  cbv zeta. intros Hlong Hin Hmore. rewrite smooth_gesture_fst. cbv zeta.
  set (window := push_window (buffer_size r) (gesture_buffer r) g) in *.
  destruct (Nat.leb_spec 3 (length window)); [|lia].
  destruct (py_max_count O window) as (x' & -> & Hin' & Hmax & _).
  { intros Hnil. rewrite Hnil in Hin. destruct Hin. }
  destruct (String.string_dec x' x) as [->|Hne]; [reflexivity|].
  specialize (Hmax x Hin). specialize (Hmore x' Hin' Hne). lia.
Qed.

(** X7: a label that occurs in the window more often than any other label
    is the answer, whatever order the set of the window is iterated in. *)
Theorem strict_plurality_wins (O : SetOrder) (g : string)
    (r : GestureRecognizer) (x : string) :
  let window := gesture_buffer (snd (smooth_gesture O g r)) in
  3 <= length window ->
  In x window ->
  (forall y, In y window -> y <> x -> count window y < count window x) ->
  fst (smooth_gesture O g r) = Ok x.
Proof.
  cbv zeta. rewrite smooth_gesture_snd. cbn [gesture_buffer set_gesture_buffer].
  apply plurality_answer.
Qed.

Lemma strict_plurality_wins_witness :
  let r := set_gesture_buffer ["ok"; "palm"; "ok"; "ok"] (init None) in
  fst (smooth_gesture latest_seen_order "fist" r) = Ok "ok"
  /\ fst (smooth_gesture first_seen_order "fist" r) = Ok "ok".
Proof.
  cbv zeta. split.
  - apply (strict_plurality_wins latest_seen_order "fist"
             (set_gesture_buffer ["ok"; "palm"; "ok"; "ok"] (init None))
             "ok"); [vm_compute; lia|vm_compute; tauto|].
    intros y Hy Hne. vm_compute in Hy.
    destruct Hy as [<-|[<-|[<-|[<-|[<-|[]]]]]]; try contradiction;
      vm_compute; lia.
  - apply (strict_plurality_wins first_seen_order "fist"
             (set_gesture_buffer ["ok"; "palm"; "ok"; "ok"] (init None))
             "ok"); [vm_compute; lia|vm_compute; tauto|].
    intros y Hy Hne. vm_compute in Hy.
    destruct Hy as [<-|[<-|[<-|[<-|[<-|[]]]]]]; try contradiction;
      vm_compute; lia.
Defined.

Lemma smooth_all_snoc (O : SetOrder) (g : string) (gs : list string) :
  forall r,
    snd (smooth_all O (gs ++ [g]) r)
    = snd (smooth_gesture O g (snd (smooth_all O gs r))).
Proof.
  induction gs as [|g0 gs IH]; intros r.
  - cbn [app]. rewrite smooth_all_cons. reflexivity.
  - cbn [app]. rewrite !smooth_all_cons. cbn [snd]. apply IH.
Qed.

Lemma skipn_repeat {A : Type} (a : A) (n j : nat) :
  skipn j (repeat a n) = repeat a (n - j).
Proof.
  revert j. induction n as [|n IH]; intros [|j]; cbn; auto.
Qed.

(** X8: a label held long enough wins: when the same label has been
    pushed k times in a row and is pushed once more, with k + 1 at least 3
    and more than half of N = [buffer_size], the answer to that push is the
    label, whatever the window held before; with the window of 5 the third
    frame in a row decides. *)
Theorem held_label_wins (O : SetOrder) (g : string) (k : nat)
    (r : GestureRecognizer) :
  (0 <= buffer_size r)%Z ->
  (Z.of_nat (length (gesture_buffer r)) <= buffer_size r)%Z ->
  2 <= k ->
  (buffer_size r < 2 * Z.of_nat (S k))%Z ->
  fst (smooth_gesture O g (snd (smooth_all O (repeat g k) r))) = Ok g.
Proof.
  intros Hsize Hlen Hk Hhalf.
  set (r2 := snd (smooth_all O (repeat g k) r)).
  set (W := push_window (buffer_size r2) (gesture_buffer r2) g).
  assert (HW : W = skipn (length (gesture_buffer r ++ repeat g (S k))
                          - Z.to_nat (buffer_size r))
                     (gesture_buffer r ++ repeat g (S k))).
  { unfold W, r2.
    rewrite <- (proj1 (smooth_gesture_buffer O g _)), <- smooth_all_snoc.
    rewrite <- repeat_cons. change (g :: repeat g k) with (repeat g (S k)).
    now apply smooth_all_buffer. }
  destruct (Nat.ltb_spec (length W) 3) as [Hshort|Hlong].
  { rewrite smooth_gesture_fst. cbv zeta. fold r2. fold W.
    destruct (Nat.leb_spec 3 (length W)); [lia|reflexivity]. }
  set (buf := gesture_buffer r) in *.
  set (N := Z.to_nat (buffer_size r)) in *.
  assert (HN : N < 2 * S k) by (unfold N; lia).
  assert (Hbuf : length buf <= N) by (unfold N; lia).
  rewrite length_app, repeat_length, skipn_app in HW.
  set (m := length buf + S k - N) in *.
  assert (Hsize' : 3 <= length buf - m + (S k - (m - length buf))).
  { rewrite HW, length_app, !length_skipn, repeat_length in Hlong.
    exact Hlong. }
  apply plurality_answer; fold r2; fold W; [exact Hlong| |].
  - rewrite HW. apply in_or_app. right. rewrite skipn_repeat.
    assert (Hpos : S k - (m - length buf) = S (k - (m - length buf)))
      by (unfold m; lia).
    rewrite Hpos. now left.
  - intros y _ Hy. unfold count. rewrite HW, !count_occ_app, !skipn_repeat.
    rewrite (count_occ_repeat_neq String.string_dec) by exact Hy.
    rewrite (count_occ_repeat_eq String.string_dec) by reflexivity.
    pose proof (count_occ_bound String.string_dec y (skipn m buf)) as Hb.
    rewrite length_skipn in Hb. unfold m in *. lia.
Qed.

Lemma held_label_wins_witness :
  let r := set_gesture_buffer ["fist"; "fist"; "palm"; "fist"; "fist"]
             (init None) in
  fst (smooth_gesture first_seen_order "ok"
         (snd (smooth_all first_seen_order (repeat "ok" 2) r)))
  = Ok "ok".
Proof.
  cbv zeta.
  apply (held_label_wins first_seen_order "ok" 2
           (set_gesture_buffer ["fist"; "fist"; "palm"; "fist"; "fist"]
              (init None)));
    unfold init, GESTURE_SMOOTHING; cbn; lia.
Defined.

(** X9: a buffer size below 3 switches smoothing off: from a window of
    fewer than 3 entries every push answers the label pushed. *)
Theorem short_buffer_is_identity (O : SetOrder) (gs : list string) :
  forall r : GestureRecognizer,
    (buffer_size r < 3)%Z ->
    length (gesture_buffer r) < 3 ->
    fst (smooth_all O gs r) = map Ok gs.
Proof.
  induction gs as [|g gs IH]; intros r Hsize Hlen; [reflexivity|].
  rewrite smooth_all_cons. cbn [fst map].
  destruct (smooth_gesture_buffer O g r) as [Hb Hs].
  assert (Hw : length (push_window (buffer_size r) (gesture_buffer r) g) < 3).
  { unfold push_window. rewrite length_app. cbn [length].
    destruct (Z.ltb_spec (buffer_size r)
                (Z.of_nat (length (gesture_buffer r) + 1))) as [Hlt|Hge].
    - destruct (gesture_buffer r) as [|b buf]; cbn in *; [lia|].
      rewrite length_app. cbn. lia.
    - rewrite length_app. cbn. lia. }
  f_equal.
  - rewrite smooth_gesture_fst. cbv zeta.
    destruct (Nat.leb_spec 3
                (length (push_window (buffer_size r) (gesture_buffer r) g)));
      [lia|reflexivity].
  - apply IH; [now rewrite Hs|now rewrite Hb].
Qed.

Lemma short_buffer_is_identity_witness :
  let r := mkRecognizer None ∅ [] 2 in
  fst (smooth_all first_seen_order ["fist"; "palm"; "palm"; "palm"] r)
  = [Ok "fist"; Ok "palm"; Ok "palm"; Ok "palm"].
Proof.
  cbv zeta.
  apply (short_buffer_is_identity first_seen_order
           ["fist"; "palm"; "palm"; "palm"] (mkRecognizer None ∅ [] 2));
    cbn; lia.
Defined.

End SmoothingFacts.

(** ** Frames *)

Module FramesFacts.
Import Recognizer Frames RecognizerFacts.

Lemma extend_all (hand_landmarks : list Landmark) :
  forall acc : list Q,
    fold_left
      (fun landmarks lm => (landmarks ++ [lm_x lm; lm_y lm; lm_z lm])%list)
      hand_landmarks acc
    = (acc ++ flat_map (fun lm => [lm_x lm; lm_y lm; lm_z lm])
                hand_landmarks)%list.
Proof.
  induction hand_landmarks as [|lm rest IH]; intros acc; cbn [fold_left].
  - cbn. now rewrite app_nil_r.
  - rewrite IH. cbn [flat_map]. now rewrite <- app_assoc.
Qed.

Lemma extract_landmarks_flat_map (hand_landmarks : list Landmark) :
  extract_landmarks hand_landmarks
  = flat_map (fun lm => [lm_x lm; lm_y lm; lm_z lm]) hand_landmarks.
Proof. unfold extract_landmarks. now rewrite extend_all. Qed.

(** X10: [extract_landmarks] gives three numbers per landmark, in the
    order of the landmarks: entries 3i, 3i+1 and 3i+2 are the x, y and z of
    landmark i, so a hand of 21 landmarks gives the FEATURES = 63 numbers
    the classifier is trained on. *)
Theorem extract_landmarks_layout (hand_landmarks : list Landmark) :
  length (extract_landmarks hand_landmarks) = 3 * length hand_landmarks
  /\ (forall i lm,
        hand_landmarks !! i = Some lm ->
        extract_landmarks hand_landmarks !! (3 * i) = Some (lm_x lm)
        /\ extract_landmarks hand_landmarks !! (3 * i + 1) = Some (lm_y lm)
        /\ extract_landmarks hand_landmarks !! (3 * i + 2) = Some (lm_z lm))
  /\ (length hand_landmarks = 21 ->
      length (extract_landmarks hand_landmarks) = FEATURES).
Proof.
  rewrite extract_landmarks_flat_map.
  assert (Hlen : forall l : list Landmark,
             length (flat_map (fun lm => [lm_x lm; lm_y lm; lm_z lm]) l)
             = 3 * length l).
  { induction l as [|lm l IH]; cbn [flat_map length app]; [reflexivity|].
    rewrite IH. lia. }
  split; [apply Hlen|]. split.
  - induction hand_landmarks as [|lm0 rest IH]; intros i lm Hi;
      [discriminate|].
    destruct i as [|i]; cbn [flat_map app].
    + injection Hi as <-. repeat split.
    + replace (3 * S i) with (S (S (S (3 * i)))) by lia.
      cbn in Hi. destruct (IH i lm Hi) as (Hx & Hy & Hz).
      repeat split; cbn; assumption.
  - intros H21. rewrite Hlen, H21. reflexivity.
Qed.

Lemma extract_landmarks_layout_witness :
  extract_landmarks
    [mkLandmark (1 # 2) (1 # 3) 0; mkLandmark (2 # 5) (3 # 5) (1 # 10)]
    !! (3 * 1 + 1)
  = Some (3 # 5).
Proof.
  destruct (extract_landmarks_layout
              [mkLandmark (1 # 2) (1 # 3) 0;
               mkLandmark (2 # 5) (3 # 5) (1 # 10)]) as (_ & Hat & _).
  apply (Hat 1 (mkLandmark (2 # 5) (3 # 5) (1 # 10))).
  reflexivity.
Defined.

Lemma classify_gesture_total (r : GestureRecognizer) (features : list Q) :
  exists label conf, classify_gesture r features = Ok (label, conf).
Proof.
  rewrite classify_gesture_unfold.
  destruct (classifier r) as [clf|];
    [destruct (invoke clf features) as [[p q]|e];
     [destruct (Qltb GESTURE_THRESHOLD q)|]|]; eauto.
Qed.

Lemma smooth_gesture_total (O : SetOrder) (g : string)
    (r : GestureRecognizer) :
  exists x, fst (smooth_gesture O g r) = Ok x.
Proof.
  rewrite smooth_gesture_fst. cbv zeta.
  set (window := push_window (buffer_size r) (gesture_buffer r) g).
  destruct (Nat.leb_spec 3 (length window)) as [Hlong|]; [|eauto].
  destruct (py_max_count O window) as (x & Hx & _); [|eauto].
  intros Hnil. rewrite Hnil in Hlong. cbn in Hlong. lia.
Qed.

Lemma process_frame_cases (O : SetOrder) (frame : Frame)
    (r : GestureRecognizer) :
  (exists e,
     process_frame O frame r = (Exc e, r)
     /\ (cvtColor frame = Exc e
         \/ (cvtColor frame = Ok tt /\ hands_process frame = Exc e)
         \/ (exists hand others,
               cvtColor frame = Ok tt
               /\ hands_process frame = Ok (hand :: others)
               /\ draw_landmarks frame hand = Exc e)))
  \/ (cvtColor frame = Ok tt
      /\ hands_process frame = Ok []
      /\ process_frame O frame r = (Ok no_hand, r))
  \/ (exists hand others raw res,
        cvtColor frame = Ok tt
        /\ hands_process frame = Ok (hand :: others)
        /\ draw_landmarks frame hand = Ok tt
        /\ process_frame O frame r = (Ok res, snd (smooth_gesture O raw r))
        /\ hand_detected res = true
        /\ landmarks res = Some (extract_landmarks hand)
        /\ classify_gesture r (extract_landmarks hand)
           = Ok (raw, confidence res)
        /\ fst (smooth_gesture O raw r) = Ok (gesture res)).
Proof.
  unfold process_frame.
  destruct (cvtColor frame) as [[]|e]; [|left; eauto].
  destruct (hands_process frame) as [[|hand others]|e].
  - right; left. now repeat split.
  - destruct (draw_landmarks frame hand) as [[]|e] eqn:Hdraw.
    + right; right.
      destruct (classify_gesture_total r (extract_landmarks hand))
        as (raw & conf & Hc).
      destruct (smooth_gesture_total O raw r) as (x & Hx).
      rewrite Hc. destruct (smooth_gesture O raw r) as [out r'] eqn:Hs.
      cbn [fst] in Hx. subst out.
      exists hand, others, raw. eexists.
      rewrite Hs. cbn. now repeat split.
    + left. exists e. split; [reflexivity|].
      right; right. exists hand, others. now repeat split.
  - left. exists e. split; [reflexivity|]. right; left. now split.
Qed.

(** X11: [process_frame] raises exactly when [cv2.cvtColor],
    [hands.process] or [draw_landmarks] on the first hand raises, with
    that exception and with the recognizer left as it was: classification
    and smoothing never raise.  When the calls return: without a hand it
    answers ('none', 0.0, None, False) and leaves the recognizer as it is;
    with hands it looks at the first one only: the landmarks reported are
    its features, the confidence is the one [classify_gesture] gave for
    this frame and the gesture is the answer of [smooth_gesture] to the
    label [classify_gesture] gave. *)
Theorem process_frame_answer (O : SetOrder) (frame : Frame)
    (r : GestureRecognizer) :
  let out := process_frame O frame r in
  (forall e,
     fst out = Exc e
     <-> cvtColor frame = Exc e
         \/ (cvtColor frame = Ok tt /\ hands_process frame = Exc e)
         \/ (exists hand others,
               cvtColor frame = Ok tt
               /\ hands_process frame = Ok (hand :: others)
               /\ draw_landmarks frame hand = Exc e))
  /\ (forall e, fst out = Exc e -> snd out = r)
  /\ (cvtColor frame = Ok tt ->
      hands_process frame = Ok [] ->
      out = (Ok no_hand, r))
  /\ (forall hand others,
        cvtColor frame = Ok tt ->
        hands_process frame = Ok (hand :: others) ->
        draw_landmarks frame hand = Ok tt ->
        exists res raw,
          fst out = Ok res
          /\ hand_detected res = true
          /\ landmarks res = Some (extract_landmarks hand)
          /\ classify_gesture r (extract_landmarks hand)
             = Ok (raw, confidence res)
          /\ fst (smooth_gesture O raw r) = Ok (gesture res)
          /\ snd out = snd (smooth_gesture O raw r)).
Proof.
  cbv zeta.
  destruct (process_frame_cases O frame r)
    as [(e0 & Hout & Hwhy)
       |[(Hcvt & Hnone & Hout)
        |(hand0 & others0 & raw & res & Hcvt & Hhands & Hdraw & Hout
          & Hdet & Hlm & Hcls & Hsm)]];
    rewrite Hout; cbn [fst snd].
  - split; [|split; [reflexivity|split]].
    + intros e. split.
      * intros H. injection H as <-. exact Hwhy.
      * intros H. f_equal.
        destruct Hwhy as [H0|[[H0 H1]|(h & o & H0 & H1 & H2)]];
          destruct H as [H'|[[H0' H1']|(h' & o' & H0' & H1' & H2')]];
          congruence.
    + intros H0 H1.
      destruct Hwhy as [H|[[_ H]|(h & o & _ & H & _)]]; congruence.
    + intros hand others H0 H1 H2.
      destruct Hwhy as [H|[[_ H]|(h & o & _ & H & H')]]; congruence.
  - split; [|split; [discriminate|split; [reflexivity|]]].
    + intros e. split; [discriminate|].
      intros [H|[[_ H]|(h & o & _ & H & _)]]; congruence.
    + intros hand others _ H. congruence.
  - split; [|split; [discriminate|split; [congruence|]]].
    + intros e. split; [discriminate|].
      intros [H|[[_ H]|(h & o & _ & H & H')]]; congruence.
    + intros hand others _ H _.
      rewrite Hhands in H. injection H as <- <-.
      exists res, raw. now repeat split.
Qed.

Lemma process_frame_answer_witness :
  let two := [mkLandmark (1 # 2) (1 # 3) 0;
              mkLandmark (2 # 5) (3 # 5) (1 # 10)] in
  let frame := mkFrame (Ok tt) (Ok [two]) Observations.checking_draw in
  fst (process_frame first_seen_order frame
         (Recognizer.init (Some checking_classifier)))
  = Exc "ValueError".
Proof.
  cbv zeta.
  destruct (process_frame_answer first_seen_order
              (mkFrame (Ok tt)
                 (Ok [[mkLandmark (1 # 2) (1 # 3) 0;
                       mkLandmark (2 # 5) (3 # 5) (1 # 10)]])
                 Observations.checking_draw)
              (Recognizer.init (Some checking_classifier)))
    as (Hraises & _).
  apply (Hraises "ValueError").
  right; right. eexists; eexists.
  split; [reflexivity|]. split; reflexivity.
Defined.

Lemma process_frames_cons O frame frames r :
  process_frames O (frame :: frames) r
  = (fst (process_frame O frame r)
       :: fst (process_frames O frames (snd (process_frame O frame r))),
     snd (process_frames O frames (snd (process_frame O frame r)))).
Proof.
  cbn [process_frames]. destruct (process_frame O frame r) as [out r1]. cbn.
  now destruct (process_frames O frames r1).
Qed.

Lemma process_frames_app O frames1 frames2 :
  forall r,
    process_frames O (frames1 ++ frames2) r
    = ((fst (process_frames O frames1 r)
          ++ fst (process_frames O frames2
                    (snd (process_frames O frames1 r))))%list,
       snd (process_frames O frames2 (snd (process_frames O frames1 r)))).
Proof.
  induction frames1 as [|f frames1 IH]; intros r.
  - cbn. now destruct (process_frames O frames2 r).
  - cbn [app]. rewrite !process_frames_cons, IH. reflexivity.
Qed.

(** X12: frames without a hand do not touch the smoothing window: after a
    gap of any number of frames in which the tracker finds no hand the
    recognizer is as it was before the gap, and the frames after the gap
    are answered as if the gap had not been there; what was pushed before
    the gap still votes. *)
Theorem gap_keeps_window (O : SetOrder) (before gap after : list Frame)
    (r : GestureRecognizer) :
  Forall (fun frame =>
            cvtColor frame = Ok tt /\ hands_process frame = Ok []) gap ->
  let r1 := snd (process_frames O before r) in
  process_frames O (before ++ gap ++ after) r
  = ((fst (process_frames O before r)
        ++ repeat (Ok no_hand) (length gap)
        ++ fst (process_frames O after r1))%list,
     snd (process_frames O (before ++ after) r)).
Proof.
  intros Hgap0. cbv zeta.
  assert (Hgap : forall r0, process_frames O gap r0
                            = (repeat (Ok no_hand) (length gap), r0)).
  { induction Hgap0 as [|frame gap [Hcvt Hnone] _ IH]; intros r0;
      [reflexivity|].
    rewrite process_frames_cons.
    assert (Hpf : process_frame O frame r0 = (Ok no_hand, r0)).
    { unfold process_frame. now rewrite Hcvt, Hnone. }
    rewrite Hpf. cbn [fst snd length repeat]. now rewrite IH. }
  rewrite !process_frames_app, Hgap. reflexivity.
Qed.

Lemma gap_keeps_window_witness :
  let hand := repeat (mkLandmark (1 # 2) (1 # 2) 0) 21 in
  let before := [Observations.seen [hand]; Observations.seen [hand]] in
  let gap := [Observations.seen [];
              mkFrame (Ok tt) (Ok []) Observations.checking_draw] in
  let after := [Observations.seen [hand]] in
  let r := Recognizer.init (Some checking_classifier) in
  process_frames first_seen_order (before ++ gap ++ after) r
  = ((fst (process_frames first_seen_order before r)
        ++ repeat (Ok no_hand) 2
        ++ fst (process_frames first_seen_order after
                  (snd (process_frames first_seen_order before r))))%list,
     snd (process_frames first_seen_order (before ++ after) r)).
Proof.
  cbv zeta.
  apply (gap_keeps_window first_seen_order
           [Observations.seen [repeat (mkLandmark (1 # 2) (1 # 2) 0) 21];
            Observations.seen [repeat (mkLandmark (1 # 2) (1 # 2) 0) 21]]
           [Observations.seen [];
            mkFrame (Ok tt) (Ok []) Observations.checking_draw]
           [Observations.seen [repeat (mkLandmark (1 # 2) (1 # 2) 0) 21]]
           (Recognizer.init (Some checking_classifier))).
  repeat constructor.
Defined.

End FramesFacts.

(** ** From the frame to the action *)

Module PipelineFacts.
Import Controller Recognizer Frames Observations RecognizerFacts FramesFacts.

Lemma push_window_In size buffer g x :
  In x (push_window size buffer g) -> In x buffer \/ x = g.
Proof.
  unfold push_window. intros H.
  assert (Hin : In x (buffer ++ [g])).
  { destruct (size <? _)%Z; [|exact H].
    destruct (buffer ++ [g])%list; [destruct H|now right]. }
  apply in_app_or in Hin. destruct Hin as [Hin|[<-|[]]]; auto.
Qed.

(** What holds of the window and of the label pushed holds of the answer
    and of the window left. *)
Lemma smooth_gesture_keeps (P : string -> Prop) (O : SetOrder) (g : string)
    (r : GestureRecognizer) (x : string) :
  (forall y, In y (gesture_buffer r) -> P y) ->
  P g ->
  fst (smooth_gesture O g r) = Ok x ->
  P x /\ forall y, In y (gesture_buffer (snd (smooth_gesture O g r))) -> P y.
Proof.
  intros Hbuf Hg Hx.
  rewrite smooth_gesture_snd. cbn [gesture_buffer set_gesture_buffer].
  rewrite smooth_gesture_fst in Hx. cbv zeta in Hx.
  set (window := push_window (buffer_size r) (gesture_buffer r) g) in *.
  assert (Hwin : forall y, In y window -> P y).
  { intros y Hy. apply push_window_In in Hy. destruct Hy as [Hy| ->]; auto. }
  split; [|exact Hwin].
  destruct (Nat.leb_spec 3 (length window)) as [Hlong|].
  - destruct (py_max_count O window) as (x' & Hx' & Hin & _).
    + intros Hnil. rewrite Hnil in Hlong. cbn in Hlong. lia.
    + rewrite Hx' in Hx. injection Hx as <-. now apply Hwin.
  - now injection Hx as <-.
Qed.

Lemma classify_gesture_named (r : GestureRecognizer) (features : list Q)
    (label : string) (conf : Q) :
  gesture_labels r = gesture_labels (Recognizer.init None) ->
  classify_gesture r features = Ok (label, conf) ->
  named label.
Proof.
  intros Hlabels. rewrite classify_gesture_unfold, Hlabels.
  unfold named.
  destruct (classifier r) as [clf|];
    [destruct (invoke clf features) as [[p q]|e];
     [destruct (Qltb GESTURE_THRESHOLD q)|]|];
    intros H; injection H as <- _; try (cbn; tauto).
  pose proof (init_label_named None p) as Hin. cbn in Hin |- *. tauto.
Qed.

Lemma named_is_mapped (label : string) :
  named label -> label <> "none" -> label <> "unknown" ->
  is_Some (gesture_actions Controller.init !! label).
Proof.
  unfold named. cbn [In].
  intros [<-|[<-|[<-|[<-|[<-|[<-|[<-|[<-|[]]]]]]]]] Hn Hu;
    try contradiction; vm_compute; eauto.
Qed.

Lemma process_frame_well_fed O frame r :
  well_fed r ->
  well_fed (snd (process_frame O frame r))
  /\ forall res, fst (process_frame O frame r) = Ok res -> named (gesture res).
Proof.
  intros [Hlabels Hbuf].
  destruct (process_frame_cases O frame r)
    as [(e0 & Hout & _)
       |[(_ & _ & Hout)
        |(hand & others & raw & res & _ & _ & _ & Hout & _ & _ & Hc & Hs)]];
    rewrite Hout; cbn [fst snd].
  - split; [now split|]. discriminate.
  - split; [now split|]. intros res H. injection H as <-.
    unfold named. cbn. tauto.
  - pose proof (classify_gesture_named r _ raw _ Hlabels Hc) as Hraw.
    destruct (smooth_gesture_keeps named O raw r _ Hbuf Hraw Hs)
      as [Hx Hwin].
    split.
    + split; [|exact Hwin]. now rewrite smooth_gesture_snd.
    + intros res' H. now injection H as <-.
Qed.

(** X13: whatever the classifier does, every gesture a recognizer built by
    [__init__] reports over any run of frames is one of fist, palm,
    thumbs_up, peace, ok, point, none and unknown, and each of the first
    six is a key of the controller's [gesture_actions]: a reported gesture
    is dropped as unmapped only when it is none or unknown. *)
Theorem reported_gestures_are_mapped (O : SetOrder)
    (clf : option Classifier) (frames : list Frame) (res : FrameResult) :
  In (Ok res) (fst (process_frames O frames (Recognizer.init clf))) ->
  named (gesture res)
  /\ (gesture res <> "none" -> gesture res <> "unknown" ->
      is_Some (gesture_actions Controller.init !! gesture res)).
Proof.
  assert (Hgen : forall r, well_fed r ->
             In (Ok res) (fst (process_frames O frames r)) ->
             named (gesture res)).
  { induction frames as [|frame frames IH]; intros r Hr Hin;
      [destruct Hin|].
    rewrite process_frames_cons in Hin. cbn [fst] in Hin.
    destruct (process_frame_well_fed O frame r Hr) as [Hr1 Hout].
    destruct Hin as [Hin|Hin]; [now apply Hout|].
    now apply (IH _ Hr1). }
  intros Hin.
  assert (Hnamed : named (gesture res)).
  { apply (Hgen (Recognizer.init clf)); [|exact Hin].
    split; [reflexivity|]. intros y []. }
  split; [exact Hnamed|]. now apply named_is_mapped.
Qed.

Lemma reported_gestures_are_mapped_witness :
  let hand := repeat (mkLandmark (1 # 2) (1 # 2) 0) 21 in
  let res := mkFrameResult "fist" (9 # 10)
               (Some (extract_landmarks hand)) true in
  named (gesture res)
  /\ (gesture res <> "none" -> gesture res <> "unknown" ->
      is_Some (gesture_actions Controller.init !! gesture res)).
Proof.
  cbv zeta.
  apply (reported_gestures_are_mapped first_seen_order
           (Some checking_classifier)
           [seen [repeat (mkLandmark (1 # 2) (1 # 2) 0) 21]]).
  left. reflexivity.
Defined.

End PipelineFacts.

(** ** The phrase table under additions *)

Module VoiceTableFacts.
Import Voice Observations VoiceFacts.

Lemma append_assoc (a b c : string) : (a ++ b) ++ c = a ++ b ++ c.
Proof.
  induction a as [|x a IH]; [reflexivity|].
  change (String x ((a ++ b) ++ c) = String x (a ++ b ++ c)).
  now rewrite IH.
Qed.

Lemma is_substring_trans (a b c : string) :
  is_substring a b -> is_substring b c -> is_substring a c.
Proof.
  intros (u & w & ->) (x & y & ->).
  exists (x ++ u), (w ++ y).
  now rewrite !append_assoc.
Qed.

Lemma dict_set_absent d k v :
  dict_get d k = None -> dict_set d k v = (d ++ [(k, v)])%list.
Proof.
  induction d as [|[k' v'] d IH]; cbn; [reflexivity|].
  destruct (String.eqb k' k); [discriminate|]. intros H. now rewrite IH.
Qed.

Lemma dict_set_present d k v :
  is_Some (dict_get d k) -> map fst (dict_set d k v) = map fst d.
Proof.
  induction d as [|[k' v'] d IH]; cbn; [intros [? H]; discriminate|].
  destruct (String.eqb_spec k' k) as [->|Hne]; [reflexivity|].
  intros H. cbn. now rewrite IH.
Qed.

Lemma dict_get_set d k v k0 :
  dict_get (dict_set d k v) k0
  = if String.eqb k0 k then Some v else dict_get d k0.
Proof.
  induction d as [|[k' v'] d IH]; cbn.
  - rewrite (String.eqb_sym k k0). reflexivity.
  - destruct (String.eqb_spec k' k) as [->|Hne]; cbn.
    + rewrite (String.eqb_sym k k0). now destruct (String.eqb k0 k).
    + destruct (String.eqb_spec k' k0) as [Heq|Hne0]; [|exact IH].
      destruct (String.eqb_spec k0 k) as [Heq'|]; [congruence|reflexivity].
Qed.

Lemma dict_get_None d k :
  dict_get d k = None <-> ~ In k (map fst d).
Proof.
  induction d as [|[k' v'] d IH]; cbn; [tauto|].
  destruct (String.eqb_spec k' k) as [->|Hne]; [|rewrite IH; tauto].
  split; [discriminate|]. intros H. exfalso. apply H. now left.
Qed.

Lemma NoDup_snoc {A : Type} (l : list A) (x : A) :
  List.NoDup l -> ~ In x l -> List.NoDup (l ++ [x]).
Proof.
  induction 1 as [|y l Hy Hnd IH]; intros Hx; cbn.
  - constructor; [intros []|constructor].
  - constructor.
    + intros Hin. apply in_app_or in Hin. destruct Hin as [Hin|[->|[]]].
      * contradiction.
      * apply Hx. now left.
    + apply IH. intros Hin. apply Hx. now right.
Qed.

(** X14: [add_custom_command] is a dictionary store under the lower-cased
    phrase: afterwards that key reads the new command and every other key
    reads what it read before; a key already in the table keeps its place
    in the order, a new key goes to the end, and keys that were distinct
    stay distinct. *)
Theorem add_custom_command_stores
    (voice_commands : list (string * string)) (phrase command : string) :
  let added := add_custom_command voice_commands phrase command in
  (forall k, dict_get added k
             = if String.eqb k (lower phrase) then Some command
               else dict_get voice_commands k)
  /\ (is_Some (dict_get voice_commands (lower phrase)) ->
      map fst added = map fst voice_commands)
  /\ (dict_get voice_commands (lower phrase) = None ->
      added = (voice_commands ++ [(lower phrase, command)])%list)
  /\ (List.NoDup (map fst voice_commands) -> List.NoDup (map fst added)).
Proof.
  cbv zeta. unfold add_custom_command.
  split; [intros k; apply dict_get_set|].
  split; [apply dict_set_present|].
  split; [apply dict_set_absent|].
  intros Hnd.
  destruct (dict_get voice_commands (lower phrase)) as [v|] eqn:Hget.
  - rewrite dict_set_present; [exact Hnd|]. rewrite Hget. eauto.
  - rewrite (dict_set_absent _ _ _ Hget), map_app. cbn.
    apply dict_get_None in Hget. now apply NoDup_snoc.
Qed.

Lemma add_custom_command_stores_witness :
  List.NoDup (map fst (add_custom_command init_voice_commands
                         "Lights ON" "lights_on")).
Proof.
  apply (add_custom_command_stores init_voice_commands "Lights ON"
           "lights_on").
  cbn. repeat (constructor; [cbn; intuition discriminate|]). constructor.
Defined.

Lemma dict_set_split d k v :
  exists before after,
    dict_set d k v = (before ++ (k, v) :: after)%list
    /\ forall k' v', In (k', v') before -> In (k', v') d /\ k' <> k.
Proof.
  induction d as [|[k0 v0] d IH]; cbn.
  - exists [], []. split; [reflexivity|]. intros ? ? [].
  - destruct (String.eqb_spec k0 k) as [->|Hne].
    + exists [], d. split; [reflexivity|]. intros ? ? [].
    + destruct IH as (before & after & -> & Hb).
      exists ((k0, v0) :: before), after. split; [reflexivity|].
      intros k' v' [H|H].
      * injection H as <- <-. split; [now left|exact Hne].
      * destruct (Hb k' v' H). split; [now right|assumption].
Qed.

(** X15: a command added with [add_custom_command] is heard: a recognized
    text that contains the phrase, capitals or not, resolves to the new
    command, provided no key that was there before, other than the phrase
    itself, occurs in the text. *)
Theorem custom_command_is_heard (voice_commands : list (string * string))
    (phrase command text : string) :
  is_substring (lower phrase) (lower text) ->
  (forall k tok, In (k, tok) voice_commands -> k <> lower phrase ->
                 ~ is_substring k (lower text)) ->
  listen_for_command (add_custom_command voice_commands phrase command)
    (Recognized text)
  = Some command.
Proof.
  intros Hsub Hothers. cbn [listen_for_command]. unfold add_custom_command.
  apply process_command_some.
  destruct (dict_set_split voice_commands (lower phrase) command)
    as (before & after & Hsplit & Hbefore).
  exists before, (lower phrase), after. split; [exact Hsplit|].
  split; [exact Hsub|].
  intros k' v' Hin. destruct (Hbefore k' v' Hin) as [Hin' Hne].
  now apply (Hothers k' v').
Qed.

Lemma custom_command_is_heard_witness :
  listen_for_command
    (add_custom_command init_voice_commands "Lights ON" "lights_on")
    (Recognized "Turn the LIGHTS on please")
  = Some "lights_on".
Proof.
  apply (custom_command_is_heard init_voice_commands "Lights ON"
           "lights_on" "Turn the LIGHTS on please").
  - now exists "turn the ", " please".
  - intros k tok Hin _. apply contains_not_substring.
    cbn in Hin.
    repeat (destruct Hin as [Hin|Hin]; [injection Hin as <- _; reflexivity|]).
    destruct Hin.
Defined.

Lemma process_command_app d1 d2 text :
  process_command (d1 ++ d2) text
  = match process_command d1 text with
    | Some tok => Some tok
    | None => process_command d2 text
    end.
Proof.
  induction d1 as [|[k tok] d1 IH]; cbn; [reflexivity|].
  now destruct (contains k text).
Qed.

(** X16: a custom phrase that contains a key already in the table is never
    reached: when the phrase is a new key and some existing key occurs in
    it, adding it changes the answer of [process_command] for no text at
    all, the earlier key always matching first. *)
Theorem shadowed_command_changes_nothing
    (voice_commands : list (string * string)) (phrase command : string)
    (k tok : string) :
  In (k, tok) voice_commands ->
  is_substring k (lower phrase) ->
  dict_get voice_commands (lower phrase) = None ->
  forall text,
    process_command (add_custom_command voice_commands phrase command) text
    = process_command voice_commands text.
Proof.
  intros Hin Hsub Hnew text. unfold add_custom_command.
  rewrite (dict_set_absent _ _ _ Hnew), process_command_app.
  destruct (process_command voice_commands text) as [t|] eqn:Hp;
    [reflexivity|].
  cbn [process_command].
  destruct (contains (lower phrase) text) eqn:Hc; [|reflexivity].
  exfalso. apply contains_is_substring in Hc.
  apply (proj1 (process_command_none _ _) Hp k tok Hin).
  now apply (is_substring_trans k (lower phrase) text).
Qed.

Lemma shadowed_command_changes_nothing_witness :
  process_command
    (add_custom_command init_voice_commands "Mute the TV" "tv_mute")
    "mute the tv"
  = Some "mute_audio".
Proof.
  rewrite (shadowed_command_changes_nothing init_voice_commands
             "Mute the TV" "tv_mute" "mute" "mute_audio").
  - reflexivity.
  - cbn. tauto.
  - now exists "", " the tv".
  - reflexivity.
Defined.

End VoiceTableFacts.

(** ** The phrase table and the controller's table of voice actions *)

Module VoiceReachFacts.
Import Controller Voice Observations VoiceFacts VoiceTableFacts.

(** X17: the command unmute_audio can not be spoken: "mute" stands before
    "unmute" in the phrase table and occurs in it, so for no text does
    [process_command], nor [listen_for_command], answer unmute_audio; a
    text with "unmute" in it resolves to the command of "mute" or of a key
    before it. *)
Theorem unmute_is_never_resolved :
  (forall text,
     process_command init_voice_commands text <> Some "unmute_audio")
  /\ (forall heard,
       listen_for_command init_voice_commands heard <> Some "unmute_audio")
  /\ (forall text,
       is_substring "unmute" text ->
       exists tok,
         process_command init_voice_commands text = Some tok
         /\ tok <> "unmute_audio"
         /\ In tok ["open_browser"; "close_browser"; "volume_up";
                    "volume_down"; "mute_audio"]).
Proof.
  assert (Hmute : forall text,
             contains "unmute" text = true -> contains "mute" text = true).
  { intros text H. apply contains_is_substring.
    apply (is_substring_trans "mute" "unmute" text).
    - now exists "un", "".
    - now apply contains_is_substring. }
  assert (Hnever : forall text,
             process_command init_voice_commands text <> Some "unmute_audio").
  { intros text. unfold init_voice_commands. cbn [process_command].
    destruct (contains "open browser" text); [discriminate|].
    destruct (contains "close browser" text); [discriminate|].
    destruct (contains "volume up" text); [discriminate|].
    destruct (contains "volume down" text); [discriminate|].
    destruct (contains "mute" text) eqn:Hm; [discriminate|].
    destruct (contains "unmute" text) eqn:Hu.
    - apply Hmute in Hu. congruence.
    - repeat (destruct (contains _ text); [discriminate|]). discriminate. }
  split; [exact Hnever|]. split.
  - intros [text| | |msg]; cbn [listen_for_command];
      [apply Hnever|discriminate..].
  - intros text Hsub.
    assert (Hm : contains "mute" text = true)
      by (apply Hmute; now apply contains_is_substring).
    assert (Hearly : exists tok,
               process_command init_voice_commands text = Some tok
               /\ In tok ["open_browser"; "close_browser"; "volume_up";
                          "volume_down"; "mute_audio"]).
    { unfold init_voice_commands. cbn [process_command].
      rewrite Hm.
      destruct (contains "open browser" text);
        [eexists; split; [reflexivity|cbn; tauto]|].
      destruct (contains "close browser" text);
        [eexists; split; [reflexivity|cbn; tauto]|].
      destruct (contains "volume up" text);
        [eexists; split; [reflexivity|cbn; tauto]|].
      destruct (contains "volume down" text);
        eexists; (split; [reflexivity|cbn; tauto]). }
    destruct Hearly as (tok & Hp & Hin).
    exists tok. split; [exact Hp|]. split; [|exact Hin].
    intros ->. now apply (Hnever text).
Qed.

Lemma unmute_is_never_resolved_witness :
  exists tok,
    process_command init_voice_commands "please unmute" = Some tok
    /\ tok <> "unmute_audio"
    /\ In tok ["open_browser"; "close_browser"; "volume_up";
               "volume_down"; "mute_audio"].
Proof.
  apply unmute_is_never_resolved. now exists "please ", "".
Defined.

Lemma resolved_command_mapped (text tok : string) :
  process_command init_voice_commands text = Some tok ->
  is_Some (voice_actions Controller.init !! tok) /\ tok <> "".
Proof.
  unfold init_voice_commands. cbn [process_command].
  repeat (destruct (contains _ text);
          [intros H; injection H as <-;
           split; [vm_compute; eauto|discriminate]|]).
  discriminate.
Qed.

(** X18: every command the phrase table of [__init__] can resolve to is a
    key of the controller's [voice_actions], and is not the empty string:
    a resolved phrase is never dropped as unmapped, in [voice_loop] or in
    [execute_voice_command]. *)
Theorem resolved_commands_are_mapped (text tok : string) :
  process_command init_voice_commands text = Some tok ->
  is_Some (voice_actions Controller.init !! tok) /\ tok <> "".
Proof. apply resolved_command_mapped. Qed.

Lemma resolved_commands_are_mapped_witness :
  is_Some (voice_actions Controller.init !! "alt_tab") /\ "alt_tab" <> "".
Proof.
  apply (resolved_commands_are_mapped "now switch window").
  reflexivity.
Defined.

End VoiceReachFacts.

(** ** Bursts of events and the loop bodies *)

Module LoopFacts.
Import Controller Recognizer Frames Voice Main Observations.
Import ControllerFacts DispatchFacts FramesFacts VoiceReachFacts.

(** Once the key is stamped inside the burst, the rest of the burst is
    dropped. *)
Lemma stamped_burst_dropped (key : string) (t0 L : Q)
    (ds : list (Q * (Action -> Outcome) * Dispatch)) :
  forall c : SystemController,
    last_action_time c !! key = Some L ->
    (t0 <= L)%Q ->
    Forall (fun '(t, _, d) =>
              cooldown_key d = key
              /\ (t - t0 < action_cooldown c)%Q) ds ->
    dispatch_all ds c = c.
Proof.
  induction ds as [|[[t exec] d] ds IH]; intros c HL Hle Hall;
    [reflexivity|].
  apply Forall_cons_iff in Hall. destruct Hall as [[Hk Hlt] Hrest].
  cbn [dispatch_all]. rewrite dispatch_rejected; [now apply IH|].
  rewrite Hk. erewrite can_execute_action_hot; [reflexivity|exact HL|lra].
Qed.

(** X19: a burst fires at most once: of any number of events with the same
    cooldown key, gestures and voice commands alike, offered at or after a
    time t0 and all less than one cooldown after t0, at most one calls its
    action. *)
Theorem burst_fires_at_most_once (key : string) (t0 : Q)
    (ds : list (Q * (Action -> Outcome) * Dispatch)) :
  forall c : SystemController,
    Forall (fun '(t, _, d) =>
              cooldown_key d = key
              /\ (t0 <= t)%Q
              /\ (t - t0 < action_cooldown c)%Q) ds ->
    invocations (trace (dispatch_all ds c)) <= S (invocations (trace c)).
Proof.
  induction ds as [|[[t exec] d] ds IH]; intros c Hall; [cbn; lia|].
  apply Forall_cons_iff in Hall. destruct Hall as [(Hk & Hge & Hlt) Hrest].
  cbn [dispatch_all]. rewrite dispatch_eq.
  destruct (resolved_action d c) as [a|];
    [destruct (fst (can_execute_action t (cooldown_key d) c))|];
    try (now apply IH).
  set (c1 := emit _ _).
  rewrite (stamped_burst_dropped key t0 t ds c1).
  - unfold c1. cbn [emit trace set_last_action_time].
    rewrite invocations_app.
    destruct (log_line_counts exec d a) as [Hi _].
    change (invocations [Invoked a; log_line exec d a])
      with (S (invocations [log_line exec d a])).
    rewrite Hi. lia.
  - unfold c1. cbn. rewrite Hk. apply lookup_insert_eq.
  - exact Hge.
  - unfold c1. cbn [emit action_cooldown set_last_action_time].
    eapply List.Forall_impl; [|exact Hrest].
    intros [[t' e'] d']. tauto.
Qed.

Lemma burst_fires_at_most_once_witness :
  let ok := fun _ : Action => Done in
  let shared_key :=
    mkController {[ "volume_up" := volume_up ]}
      (voice_actions Controller.init) ∅ 1 [] in
  invocations
    (trace (dispatch_all
              [(0%Q, ok,
                FromGesture (mkGestureResult "volume_up" (9 # 10) true));
               (1 # 30, ok, FromVoice "volume_up");
               (2 # 30, ok,
                FromGesture (mkGestureResult "volume_up" (9 # 10) true));
               (29 # 30, ok, FromVoice "volume_up")]
              shared_key))
  <= 1.
Proof.
  cbv zeta.
  apply (burst_fires_at_most_once "volume_up" 0
           [(0%Q, (fun _ => Done),
             FromGesture (mkGestureResult "volume_up" (9 # 10) true));
            (1 # 30, (fun _ => Done), FromVoice "volume_up");
            (2 # 30, (fun _ => Done),
             FromGesture (mkGestureResult "volume_up" (9 # 10) true));
            (29 # 30, (fun _ => Done), FromVoice "volume_up")]
           (mkController {[ "volume_up" := volume_up ]}
              (voice_actions Controller.init) ∅ 1 [])).
  repeat constructor; cbn; lra.
Defined.

(** X20: one turn of [voice_loop] on a recognized text, with the tables of
    [__init__]: when the lower-cased text resolves to a command, the
    command is a key of [voice_actions]; its action is called and logged
    when the cooldown gate admits it and is not called otherwise, and in
    both cases the loop then logs "Voice command: ...". *)
Theorem spoken_phrase_turn (current_time : Q) (exec : Action -> Outcome)
    (text tok : string) (s : HandGestureVoiceSystem) :
  voice_commands s = init_voice_commands ->
  voice_actions (system_controller s) = voice_actions Controller.init ->
  process_command init_voice_commands (lower text) = Some tok ->
  exists a,
    voice_actions Controller.init !! tok = Some a
    /\ trace (system_controller
                (voice_loop_body current_time exec
                   (Finished (Recognized text)) s))
       = (trace (system_controller s)
            ++ (if fst (can_execute_action current_time tok
                          (system_controller s))
                then [Invoked a; log_line exec (FromVoice tok) a]
                else [])
            ++ [LogInfo ("Voice command: " ++ tok)])%list.
Proof.
  intros Hcmds Hacts Hres.
  destruct (resolved_command_mapped _ _ Hres) as [[a Ha] Hne].
  exists a. split; [exact Ha|].
  unfold voice_loop_body. cbn [listen_for_command]. rewrite Hcmds, Hres.
  assert (Htruthy : truthy tok = true).
  { unfold truthy. apply Bool.negb_true_iff. now apply String.eqb_neq. }
  rewrite Htruthy. cbn [system_controller emit trace].
  change (execute_voice_command current_time exec tok (system_controller s))
    with (dispatch current_time exec (FromVoice tok) (system_controller s)).
  rewrite dispatch_eq. cbn [resolved_action cooldown_key].
  rewrite Hacts, Ha.
  destruct (fst (can_execute_action current_time tok (system_controller s)));
    cbn [emit trace set_last_action_time];
    now rewrite <- ?app_assoc.
Qed.

Lemma spoken_phrase_turn_witness :
  exists a,
    voice_actions Controller.init !! "zoom_in" = Some a
    /\ trace (system_controller
                (voice_loop_body 3 (fun _ => Done)
                   (Finished (Recognized "Zoom In a bit")) (Main.init None)))
       = [Invoked a; log_line (fun _ => Done) (FromVoice "zoom_in") a;
          LogInfo "Voice command: zoom_in"].
Proof.
  apply (spoken_phrase_turn 3 (fun _ => Done) "Zoom In a bit" "zoom_in"
           (Main.init None)); reflexivity.
Defined.

(** X21: one turn of [gesture_loop] up to the dispatch (lines 59-71)
    raises exactly when [cap.read], [cv2.flip] or [process_frame] raises,
    with that exception and with nothing changed: the dispatch adds none,
    an exception of the action being caught and logged by
    [execute_gesture_command].  A turn without a frame changes nothing, a turn
    whose reported gesture is none leaves the controller as it is, and in
    any turn the trace only grows and at most one action is called. *)
Theorem gesture_turn_outcome (O : SetOrder) (current_time : Q)
    (exec : Action -> Outcome) (read : Result (bool * Captured))
    (s : HandGestureVoiceSystem) :
  let out := gesture_loop_body O current_time exec read s in
  (forall e,
     fst out = Exc e
     <-> read = Exc e
         \/ exists captured,
              read = Ok (true, captured)
              /\ (cv2_flip captured = Exc e
                  \/ exists frame,
                       cv2_flip captured = Ok frame
                       /\ fst (process_frame O frame (gesture_recognizer s))
                          = Exc e))
  /\ (forall e, fst out = Exc e -> snd out = s)
  /\ (forall captured, read = Ok (false, captured) -> out = (Ok tt, s))
  /\ voice_commands (snd out) = voice_commands s
  /\ running (snd out) = running s
  /\ (forall captured frame res,
        read = Ok (true, captured) ->
        cv2_flip captured = Ok frame ->
        fst (process_frame O frame (gesture_recognizer s)) = Ok res ->
        fst out = Ok tt
        /\ gesture_recognizer (snd out)
           = snd (process_frame O frame (gesture_recognizer s))
        /\ (Frames.gesture res = "none" ->
            system_controller (snd out) = system_controller s))
  /\ (exists appended,
        trace (system_controller (snd out))
        = (trace (system_controller s) ++ appended)%list
        /\ invocations appended <= 1).
Proof.
  cbv zeta.
  assert (Hquiet : exists appended,
             trace (system_controller s)
             = (trace (system_controller s) ++ appended)%list
             /\ invocations appended <= 1).
  { exists []. split; [now rewrite app_nil_r|cbn; lia]. }
  destruct read as [[[|] captured]|e0]; cbn [gesture_loop_body].
  2:{ cbn [fst snd]. split; [|now repeat split].
      intros e. split; [discriminate|].
      intros [H|(cap & H & _)]; congruence. }
  2:{ cbn [fst snd]. split; [|now repeat split].
      intros e. split; [intros H; left; congruence|].
      intros [H|(cap & H & _)]; congruence. }
  destruct (cv2_flip captured) as [frame|e0] eqn:Hflip.
  2:{ cbn [fst snd]. split; [|split; [reflexivity|]].
      - intros e. split.
        + intros H. right. exists captured. split; [reflexivity|].
          left. congruence.
        + intros [H|(cap & H & [H'|(fr & H' & _)])]; congruence.
      - split; [discriminate|]. split; [reflexivity|].
        split; [reflexivity|]. split; [|exact Hquiet].
        intros cap fr res H H'. congruence. }
  destruct (process_frame O frame (gesture_recognizer s)) as [out r']
    eqn:Hpf.
  destruct out as [res|e0].
  2:{ assert (Hr' : r' = gesture_recognizer s).
      { destruct (process_frame_cases O frame (gesture_recognizer s))
          as [(e1 & Hout & _)
             |[(_ & _ & Hout)|(h & o & raw & res & _ & _ & _ & Hout & _)]];
          rewrite Hpf in Hout; congruence. }
      subst r'. cbn [fst snd voice_commands running system_controller].
      split; [|split].
      - intros e. split.
        + intros H. right. exists captured. split; [reflexivity|].
          right. exists frame. split; [exact Hflip|].
          rewrite Hpf. cbn [fst]. congruence.
        + intros [H|(cap & H & [H'|(fr & H' & H'')])]; try congruence.
          injection H as <-. rewrite Hflip in H'. injection H' as <-.
          rewrite Hpf in H''. cbn [fst] in H''. congruence.
      - intros e _. now destruct s.
      - split; [discriminate|]. split; [reflexivity|].
        split; [reflexivity|]. split; [|exact Hquiet].
        intros cap fr res H H' H''. injection H as <-.
        rewrite Hflip in H'. injection H' as <-.
        rewrite Hpf in H''. discriminate. }
  destruct (String.eqb_spec (Frames.gesture res) "none") as [Hnone|Hsome].
  - cbn [fst snd voice_commands running system_controller
         gesture_recognizer].
    split; [|split; [discriminate|split; [discriminate|]]].
    + intros e. split; [discriminate|].
      intros [H|(cap & H & [H'|(fr & H' & H'')])]; try congruence.
      injection H as <-. rewrite Hflip in H'. injection H' as <-.
      rewrite Hpf in H''. discriminate.
    + split; [reflexivity|]. split; [reflexivity|].
      split; [|exact Hquiet].
      intros cap fr res' H H' H''. injection H as <-.
      rewrite Hflip in H'. injection H' as <-. rewrite Hpf.
      now repeat split.
  - cbn [fst snd voice_commands running system_controller
         gesture_recognizer].
    split; [|split; [discriminate|split; [discriminate|]]].
    + intros e. split; [discriminate|].
      intros [H|(cap & H & [H'|(fr & H' & H'')])]; try congruence.
      injection H as <-. rewrite Hflip in H'. injection H' as <-.
      rewrite Hpf in H''. discriminate.
    + split; [reflexivity|]. split; [reflexivity|]. split.
      * intros cap fr res' H H' H''. injection H as <-.
        rewrite Hflip in H'. injection H' as <-.
        rewrite Hpf in H'' |- *. injection H'' as <-.
        split; [reflexivity|]. split; [reflexivity|].
        intros Hn. contradiction.
      * set (gr := mkGestureResult _ _ _).
        change (execute_gesture_command current_time exec gr
                  (system_controller s))
          with (dispatch current_time exec (FromGesture gr)
                  (system_controller s)).
        rewrite dispatch_eq.
        destruct (resolved_action (FromGesture gr) (system_controller s))
          as [a|];
          [destruct (fst (can_execute_action current_time
                            (cooldown_key (FromGesture gr))
                            (system_controller s)))|];
          cbn [emit trace set_last_action_time]; eexists;
          (split; [rewrite <- ?app_assoc; reflexivity|]).
        -- destruct (log_line_counts exec (FromGesture gr) a) as [Hi _].
           rewrite invocations_app.
           change (invocations [Invoked a; log_line exec (FromGesture gr) a])
             with (S (invocations [log_line exec (FromGesture gr) a])).
           rewrite Hi. cbn. lia.
        -- cbn. lia.
        -- cbn. lia.
Qed.

Lemma gesture_turn_outcome_witness :
  let two := [mkLandmark (1 # 2) (1 # 3) 0;
              mkLandmark (2 # 5) (3 # 5) (1 # 10)] in
  let frame := mkFrame (Ok tt) (Ok [two]) checking_draw in
  fst (gesture_loop_body first_seen_order 0 (fun _ => Done)
         (Ok (true, mkCaptured (Ok frame)))
         (Main.init (Some checking_classifier)))
  = Exc "ValueError".
Proof.
  cbv zeta.
  destruct (gesture_turn_outcome first_seen_order 0 (fun _ => Done)
              (Ok (true,
                   mkCaptured
                     (Ok (mkFrame (Ok tt)
                            (Ok [[mkLandmark (1 # 2) (1 # 3) 0;
                                  mkLandmark (2 # 5) (3 # 5) (1 # 10)]])
                            checking_draw))))
              (Main.init (Some checking_classifier)))
    as (Hraises & _).
  apply (Hraises "ValueError").
  right. eexists. split; [reflexivity|].
  right. eexists. split; reflexivity.
Defined.

End LoopFacts.

(** ** The settings *)

Module SettingsFacts.
Import Settings.

(** X22: the clamp of [validate_settings] puts a confidence into [0, 1]:
    the result lies between 0 and 1, a value already there is kept, a
    value below 0 becomes 0 and a value above 1 becomes 1; the two
    confidences of the file are in range and stay as they are. *)
Theorem clamp_into_unit_interval (x : Q) :
  (0 <= clamp x <= 1)%Q
  /\ ((0 <= x <= 1)%Q -> (clamp x == x)%Q)
  /\ ((x < 0)%Q -> clamp x = 0%Q)
  /\ ((1 < x)%Q -> clamp x = 1%Q)
  /\ clamp MIN_DETECTION_CONFIDENCE = MIN_DETECTION_CONFIDENCE
  /\ clamp MIN_TRACKING_CONFIDENCE = MIN_TRACKING_CONFIDENCE.
Proof.
  unfold clamp, py_max2, py_min2.
  destruct (Qltb x 1) eqn:H1;
    [apply Qltb_lt in H1|apply Qltb_ge in H1].
  - destruct (Qltb 0 x) eqn:H0;
      [apply Qltb_lt in H0|apply Qltb_ge in H0];
      repeat split; try reflexivity; intros; try lra.
  - assert (H01 : Qltb 0 1 = true) by reflexivity. rewrite H01.
    repeat split; try reflexivity; intros; try lra.
Qed.

Lemma clamp_into_unit_interval_witness :
  clamp (13 # 10) = 1%Q /\ clamp (-(1 # 4)) = 0%Q.
Proof.
  split.
  - apply (clamp_into_unit_interval (13 # 10)). reflexivity.
  - apply (clamp_into_unit_interval (-(1 # 4))). reflexivity.
Defined.

End SettingsFacts.
